(** * Microphone pitch-detection pipeline of music-reader

    A shallow embedding of [src/utils/micUtils.js] (the YIN revision, with
    [STABLE_FRAMES = 3]) and of the MPM revision of the same module, which
    adds silence-gap tracking.  The first part holds the model: the note
    mapper [freqToNote], the energy measure [getRms], the per-frame [loop]
    with its stability gate, and the session functions.  The second part
    proves the properties of the design document, claim by claim, and then
    further properties of the code.

    Around the module the model also holds the earlier rounding revision of
    [freqToNote], [noteToFreq] of [audioUtils.js], the hook [useMic] that
    starts and stops the session, and the note pools with the song
    generator whose notes the microphone is meant to recognise.

    The browser is the environment.  A frame of the loop is what the
    browser and the pitch detector hand to it; calls out of the module
    (callbacks, audio-graph teardown) are recorded as events.

    Numbers.  JavaScript numbers are IEEE doubles.  They are modelled here
    by exact real numbers ([R]); [NaN] and [Infinity] are made explicit
    where the code can produce them.  Timestamps ([Date.now()]), MIDI
    numbers, octaves and frame counters only ever hold integers and are
    modelled by [Z].  Comparisons of reals go through the boolean tests
    [Rltb] and [Rleb]. *)

From Stdlib Require Import Reals Lra Lia ZArith List String Ascii Bool.
Import ListNotations.

Set Implicit Arguments.

(** ** JavaScript numeric helpers *)

Definition Rltb (x y : R) : bool := if Rlt_dec x y then true else false.
Definition Rleb (x y : R) : bool := if Rle_dec x y then true else false.

(** [Math.round]: nearest integer, halves going up. *)
Definition Math_round (x : R) : Z := Int_part (x + 1 / 2).

(** [Math.log2]. *)
Definition Math_log2 (x : R) : R := (ln x / ln 2)%R.

(** A JavaScript number that is either finite or [Infinity]. *)
Inductive extnum : Type :=
| Infinity : extnum
| Fin : R -> extnum.

(** [x < e] and [e > x] for a finite [x]. *)
Definition lt_ext (x : R) (e : extnum) : bool :=
  match e with
  | Infinity => true
  | Fin b => Rltb x b
  end.

Definition ext_gt (e : extnum) (x : R) : bool :=
  match e with
  | Infinity => true
  | Fin b => Rltb x b
  end.

(** [for (let i = lo; i <= hi; i++) acc = body i acc] *)
Fixpoint for_upto (A : Type) (n : nat) (i : Z) (body : Z -> A -> A) (acc : A) : A :=
  match n with
  | O => acc
  | S n' => for_upto n' (i + 1) body (body i acc)
  end.

Definition for_range (A : Type) (lo hi : Z) (body : Z -> A -> A) (acc : A) : A :=
  for_upto (Z.to_nat (hi - lo + 1)) lo body acc.

(** [s.includes(pat)] *)
Definition includes (s pat : string) : bool :=
  match String.index 0 pat s with
  | Some _ => true
  | None => false
  end.

(** ** Notes *)

Record Note : Type := mkNote { name : string; octave : Z }.

Definition NOTE_NAMES : list string :=
  ["C"; "C#"; "D"; "D#"; "E"; "F"; "F#"; "G"; "G#"; "A"; "A#"; "B"]%string.

(** [NOTE_NAMES[((midi % 12) + 12) % 12]]: JavaScript's [%] truncates
    toward zero, which is [Z.rem]. *)
Definition pitchClass (midi : Z) : Z := Z.rem (Z.rem midi 12 + 12) 12.

Definition noteName (midi : Z) : string :=
  nth (Z.to_nat (pitchClass midi)) NOTE_NAMES EmptyString.

Definition isSharp (midi : Z) : bool := includes (noteName midi) "#".

(** The natural pitch classes are C D E F G A B. *)
Definition naturalClass (pc : Z) : bool :=
  existsb (Z.eqb pc) [0; 2; 4; 5; 7; 9; 11]%Z.

(** ** NoteMapper: [freqToNote] *)

Module NoteMapper.

(** The two loop variables [bestMidi] and [bestDist]. *)
Record best : Type := mkBest { bestMidi : option Z; bestDist : extnum }.

Definition best0 : best := mkBest None Infinity.

(** One iteration of the loop over candidate MIDI numbers. *)
Definition consider (midiFloat : R) (midi : Z) (b : best) : best :=
  if isSharp midi then b
  else
    let dist := Rabs (midiFloat - IZR midi) in
    if lt_ext dist (bestDist b) then mkBest (Some midi) (Fin dist) else b.

Definition octaveOf (midi : Z) : Z := (midi / 12 - 1)%Z.

Definition noteOfMidi (midi : Z) : Note := mkNote (noteName midi) (octaveOf midi).

(** Everything after [midiFloat] has been computed. *)
Definition snapMidi (midiFloat snapTolerance : R) : option Note :=
  let center := Math_round midiFloat in
  let b := for_range (center - 2) (center + 2) (consider midiFloat) best0 in
  match bestMidi b with
  | None => None
  | Some m =>
      if ext_gt (bestDist b) snapTolerance then None
      else Some (noteOfMidi m)
  end.

Definition midiFloatOf (freq : R) : R := (12 * Math_log2 (freq / 440) + 69)%R.

Definition freqToNote (freq snapTolerance : R) : option Note :=
  if Rltb freq 27 || Rltb 4200 freq then None
  else snapMidi (midiFloatOf freq) snapTolerance.

End NoteMapper.

(** ** RMS energy: [getRms] *)

(** A JavaScript number that is either a real or [NaN]. *)
Inductive jsnum : Type :=
| Num : R -> jsnum
| NaN : jsnum.

(** [x >= t] and [x < t] on a possibly-[NaN] left operand: every
    comparison with [NaN] is false. *)
Definition num_ge (x : jsnum) (t : R) : bool :=
  match x with
  | Num r => Rleb t r
  | NaN => false
  end.

Definition num_lt (x : jsnum) (t : R) : bool :=
  match x with
  | Num r => Rltb r t
  | NaN => false
  end.

(** [for (let i = 0; i < buf.length; i++) sum += buf[i] * buf[i]] *)
Definition sumSquares (buf : list R) : R :=
  fold_left (fun sum x => (sum + x * x)%R) buf 0%R.

(** [Math.sqrt(sum / buf.length)].  On an empty buffer the sum is [0] and
    the quotient [0 / 0] is [NaN], whose square root is [NaN]. *)
Definition getRms (buf : list R) : jsnum :=
  let sum := sumSquares buf in
  match List.length buf with
  | O => NaN
  | S _ => Num (sqrt (sum / INR (List.length buf)))
  end.

(** ** Session state and events *)

(** Browser objects (streams, audio nodes, contexts) are opaque handles. *)
Definition handle : Type := nat.

(** What the module does to the outside world. *)
Inductive event : Type :=
| OnHeard : string -> R -> event
| OnNote : string -> Z -> event
| CancelAnimationFrame : positive -> event
| Disconnect : handle -> event
| CloseContext : handle -> event
| StopTracks : handle -> event.

Definition isOnNote (e : event) : bool :=
  match e with
  | OnNote _ _ => true
  | _ => false
  end.

(** The [onNote] invocations among a list of events. *)
Definition onNoteCalls (evs : list event) : list event := filter isOnNote evs.

(** One analysis frame as the loop observes it: the samples written by
    [analyser.getFloatTimeDomainData], what the pitch detector answers on
    them, the clock, and the identifier [requestAnimationFrame] hands back
    (identifiers count from 1). *)
Record Frame : Type := mkFrame {
  frame_buf : list R;
  frame_pitch : option R;
  frame_now : Z;
  frame_raf : positive
}.

(** A JavaScript exception value with the two properties the module reads. *)
Record JsError : Type := mkJsError { err_name : string; err_message : string }.

Inductive completion (A : Type) : Type :=
| Normal : A -> completion A
| Throw : JsError -> completion A.

Arguments Normal {A} _.
Arguments Throw {A} _.

(** ** [micUtils.js], YIN revision *)

Module MicUtils.

Import NoteMapper.

Record Preset : Type := mkPreset {
  fftSize : Z;
  yinThreshold : R;
  rmsThreshold : R;
  snapTolerance : R
}.

Definition strict : Preset := mkPreset 4096 (1 / 10) (2 / 100) (35 / 100).
Definition normal : Preset := mkPreset 4096 (2 / 10) (15 / 1000) (45 / 100).
Definition piano : Preset := mkPreset 8192 (25 / 100) (1 / 100) (5 / 10).

(** [MIC_PRESETS[mode]] *)
Definition MIC_PRESETS (mode : string) : option Preset :=
  if String.eqb mode "strict" then Some strict
  else if String.eqb mode "normal" then Some normal
  else if String.eqb mode "piano" then Some piano
  else None.

Definition SAME_NOTE_COOLDOWN_MS : Z := 1500.
Definition ANY_NOTE_COOLDOWN_MS : Z := 100.
Definition STABLE_FRAMES : Z := 3.

(** The module-level variables. *)
Record State : Type := mkState {
  audioCtx : option handle;
  analyser : option handle;
  source : option handle;
  stream : option handle;
  rafId : option positive;
  lastFiredNote : option string;
  lastFiredTime : Z;
  suppressUntil : Z;
  stableNote : option Note;
  stableCount : Z
}.

Definition init : State :=
  mkState None None None None None None 0 0 None 0.

Definition set_stable (n : option Note) (c : Z) (st : State) : State :=
  mkState (audioCtx st) (analyser st) (source st) (stream st) (rafId st)
          (lastFiredNote st) (lastFiredTime st) (suppressUntil st) n c.

Definition set_lastFired (n : option string) (t : Z) (st : State) : State :=
  mkState (audioCtx st) (analyser st) (source st) (stream st) (rafId st)
          n t (suppressUntil st) (stableNote st) (stableCount st).

Definition set_rafId (r : option positive) (st : State) : State :=
  mkState (audioCtx st) (analyser st) (source st) (stream st) r
          (lastFiredNote st) (lastFiredTime st) (suppressUntil st)
          (stableNote st) (stableCount st).

Definition set_suppressUntil (t : Z) (st : State) : State :=
  mkState (audioCtx st) (analyser st) (source st) (stream st) (rafId st)
          (lastFiredNote st) (lastFiredTime st) t
          (stableNote st) (stableCount st).

Definition set_graph (ctx an src str : option handle) (st : State) : State :=
  mkState ctx an src str (rafId st)
          (lastFiredNote st) (lastFiredTime st) (suppressUntil st)
          (stableNote st) (stableCount st).

(** Lines 93-96 of [loop]: the candidate note of a frame, with the
    frequency it was derived from. *)
Definition detect (preset : Preset) (fr : Frame) : option Note * R :=
  let rms := getRms (frame_buf fr) in
  let rawFreq := if num_ge rms (rmsThreshold preset) then frame_pitch fr else None in
  let freq := match rawFreq with Some f => f | None => (-1)%R end in
  let note := if Rltb 0 freq then freqToNote freq (snapTolerance preset) else None in
  (note, freq).

(** Lines 97-106: [if (onHeard && candidateName) onHeard(candidateName, freq)];
    a string is truthy when it is not empty. *)
Definition heard (note : option Note) (freq : R) : list event :=
  match note with
  | Some n => if String.eqb (name n) "" then [] else [OnHeard (name n) freq]
  | None => []
  end.

(** Lines 108-115: stability tracking, by note name. *)
Definition track (note : option Note) (st : State) : State :=
  match note with
  | Some n =>
      match stableNote st with
      | Some s =>
          if String.eqb (name n) (name s)
          then set_stable (stableNote st) (stableCount st + 1) st
          else set_stable (Some n) 1 st
      | None => set_stable (Some n) 1 st
      end
  | None => st
  end.

(** [stableNote.name === lastFiredNote] *)
Definition sameNoteAs (s : Note) (last : option string) : bool :=
  match last with
  | Some l => String.eqb (name s) l
  | None => false
  end.

(** Lines 127-141: the firing decision. *)
Definition fire (now : Z) (st : State) : State * list event :=
  match stableNote st with
  | Some s =>
      if (STABLE_FRAMES <=? stableCount st)%Z then
        let timeSinceLastFire := (now - lastFiredTime st)%Z in
        let sameNote := sameNoteAs s (lastFiredNote st) in
        if (timeSinceLastFire <? ANY_NOTE_COOLDOWN_MS)%Z then (st, [])
        else if negb sameNote || (SAME_NOTE_COOLDOWN_MS <? timeSinceLastFire)%Z then
          (set_stable None 0 (set_lastFired (Some (name s)) now st),
           [OnNote (name s) (octave s)])
        else (st, [])
      else (st, [])
  | None => (st, [])
  end.

(** Lines 108-142: what one frame does once its candidate is known. *)
Definition gate (note : option Note) (now : Z) (raf : positive) (st : State)
  : State * list event :=
  let st1 := track note st in
  if (now <? suppressUntil st1)%Z then
    (set_rafId (Some raf) (set_stable None 0 st1), [])
  else
    let (st2, fired) := fire now st1 in
    (set_rafId (Some raf) st2, fired).

(** One run of [loop]. *)
Definition loop (preset : Preset) (fr : Frame) (st : State) : State * list event :=
  let (note, freq) := detect preset fr in
  let (st', fired) := gate note (frame_now fr) (frame_raf fr) st in
  (st', heard note freq ++ fired).

(** The loop over a sequence of frames, with everything it emitted. *)
Fixpoint run (preset : Preset) (frames : list Frame) (st : State)
  : State * list event :=
  match frames with
  | [] => (st, [])
  | fr :: rest =>
      let (st1, evs1) := loop preset fr st in
      let (st2, evs2) := run preset rest st1 in
      (st2, evs1 ++ evs2)
  end.

(** The gate over a sequence of candidates and clock readings. *)
Fixpoint runGate (inputs : list (option Note * Z * positive)) (st : State)
  : State * list event :=
  match inputs with
  | [] => (st, [])
  | (note, now, raf) :: rest =>
      let (st1, evs1) := gate note now raf st in
      let (st2, evs2) := runGate rest st1 in
      (st2, evs1 ++ evs2)
  end.

(** [suppressMicListening(durationMs)], called when the clock reads [now]. *)
Definition suppressMicListening (now durationMs : Z) (st : State) : State :=
  set_suppressUntil (now + durationMs)%Z st.

(** [stopMicListening()] *)
Definition stopMicListening (st : State) : State * list event :=
  let evs_raf := match rafId st with Some id => [CancelAnimationFrame id] | None => [] end in
  let evs_src := match source st with Some s => [Disconnect s] | None => [] end in
  let evs_ctx := match audioCtx st with Some c => [CloseContext c] | None => [] end in
  let evs_str := match stream st with Some s => [StopTracks s] | None => [] end in
  (mkState None None None None None None 0 0 None 0,
   evs_raf ++ evs_src ++ evs_ctx ++ evs_str).

(** *** [startMicListening] *)

(** Computations that read and write the module variables, emit events and
    may throw. *)
Definition M (A : Type) : Type := State -> State * list event * completion A.

Definition ret (A : Type) (a : A) : M A := fun st => (st, [], Normal a).

Definition bind (A B : Type) (m : M A) (k : A -> M B) : M B :=
  fun st =>
    match m st with
    | (st1, evs1, Normal a) =>
        match k a st1 with
        | (st2, evs2, r) => (st2, evs1 ++ evs2, r)
        end
    | (st1, evs1, Throw e) => (st1, evs1, Throw e)
    end.

(** [try { body } catch (err) { handler(err) }] *)
Definition tryCatch (A : Type) (body : M A) (handler : JsError -> M A) : M A :=
  fun st =>
    match body st with
    | (st1, evs1, Normal a) => (st1, evs1, Normal a)
    | (st1, evs1, Throw e) =>
        match handler e st1 with
        | (st2, evs2, r) => (st2, evs1 ++ evs2, r)
        end
    end.

(** A call into the browser: it answers or throws, and leaves the module
    variables alone. *)
Definition call (A : Type) (c : completion A) : M A := fun st => (st, [], c).

Definition modify (f : State -> State) : M unit := fun st => (f st, [], Normal tt).

Definition liftLoop (preset : Preset) (fr : Frame) : M unit :=
  fun st => let (st', evs) := loop preset fr st in (st', evs, Normal tt).

Notation "x <- m ;; k" := (bind m (fun x => k))
  (at level 61, m at next level, right associativity).
Notation "m ;;; k" := (bind m (fun _ => k))
  (at level 61, right associativity).

(** What the browser answers to each request of [startMicListening]. *)
Record Browser : Type := mkBrowser {
  getUserMedia : completion handle;
  newAudioContext : completion handle;
  createAnalyser : completion handle;
  createMediaStreamSource : completion handle;
  connect : completion unit;
  newYIN : completion unit;
  firstFrame : Frame
}.

Record Options : Type := mkOptions { mode : option string }.

Definition denied : string :=
  "Microphone access denied — allow it in your browser settings and try again.".

Definition describe (err : JsError) : string :=
  if String.eqb (err_name err) "NotAllowedError" then denied
  else ("Microphone error: " ++ err_message err)%string.

Definition presetOf (options : Options) : Preset :=
  let mode := match mode options with Some m => m | None => "normal"%string end in
  match MIC_PRESETS mode with
  | Some p => p
  | None => normal
  end.

Definition startMicListening (br : Browser) (options : Options) : M (option string) :=
  tryCatch
    (let preset := presetOf options in
     s <- call (getUserMedia br) ;;
     modify (fun st => set_graph (audioCtx st) (analyser st) (source st) (Some s) st) ;;;
     c <- call (newAudioContext br) ;;
     modify (fun st => set_graph (Some c) (analyser st) (source st) (stream st) st) ;;;
     a <- call (createAnalyser br) ;;
     modify (fun st => set_graph (audioCtx st) (Some a) (source st) (stream st) st) ;;;
     src <- call (createMediaStreamSource br) ;;
     modify (fun st => set_graph (audioCtx st) (analyser st) (Some src) (stream st) st) ;;;
     call (connect br) ;;;
     call (newYIN br) ;;;
     liftLoop preset (firstFrame br) ;;;
     ret None)
    (fun err => ret (Some (describe err))).

End MicUtils.

(** ** The MPM revision of [micUtils.js]: silence-gap tracking *)

Module MicUtilsMPM.

Import NoteMapper.

Record Preset : Type := mkPreset {
  fftSize : Z;
  mpmCutoff : R;
  rmsThreshold : R;
  snapTolerance : R;
  filterLow : R;
  filterHigh : R
}.

Definition strict : Preset := mkPreset 4096 (93 / 100) (12 / 1000) (35 / 100) 80 2000.
Definition normal : Preset := mkPreset 8192 (90 / 100) (6 / 1000) (45 / 100) 60 2500.
Definition piano : Preset := mkPreset 8192 (85 / 100) (4 / 1000) (50 / 100) 50 2000.

Definition SAME_NOTE_COOLDOWN_MS : Z := 700.
Definition ANY_NOTE_COOLDOWN_MS : Z := 80.
Definition STABLE_FRAMES : Z := 2.
Definition SILENCE_GAP_FRAMES : Z := 4.

(** The module-level variables. *)
Record State : Type := mkState {
  audioCtx : option handle;
  analyser : option handle;
  source : option handle;
  filterNodes : list handle;
  stream : option handle;
  rafId : option positive;
  lastFiredNote : option string;
  lastFiredTime : Z;
  suppressUntil : Z;
  stableNote : option Note;
  stableCount : Z;
  silenceFrames : Z
}.

Definition init : State :=
  mkState None None None [] None None None 0 0 None 0 0.

Definition set_stable (n : option Note) (c : Z) (st : State) : State :=
  mkState (audioCtx st) (analyser st) (source st) (filterNodes st) (stream st)
          (rafId st) (lastFiredNote st) (lastFiredTime st) (suppressUntil st)
          n c (silenceFrames st).

Definition set_lastFired (n : option string) (t : Z) (st : State) : State :=
  mkState (audioCtx st) (analyser st) (source st) (filterNodes st) (stream st)
          (rafId st) n t (suppressUntil st)
          (stableNote st) (stableCount st) (silenceFrames st).

Definition set_lastFiredNote (n : option string) (st : State) : State :=
  set_lastFired n (lastFiredTime st) st.

Definition set_rafId (r : option positive) (st : State) : State :=
  mkState (audioCtx st) (analyser st) (source st) (filterNodes st) (stream st)
          r (lastFiredNote st) (lastFiredTime st) (suppressUntil st)
          (stableNote st) (stableCount st) (silenceFrames st).

Definition set_silenceFrames (n : Z) (st : State) : State :=
  mkState (audioCtx st) (analyser st) (source st) (filterNodes st) (stream st)
          (rafId st) (lastFiredNote st) (lastFiredTime st) (suppressUntil st)
          (stableNote st) (stableCount st) n.

(** Lines 135-138 of [loop]. *)
Definition detect (preset : Preset) (fr : Frame) : option Note * R :=
  let rms := getRms (frame_buf fr) in
  let rawFreq := if num_ge rms (rmsThreshold preset) then frame_pitch fr else None in
  let freq := match rawFreq with Some f => f | None => (-1)%R end in
  let note := if Rltb 0 freq then freqToNote freq (snapTolerance preset) else None in
  (note, freq).

(** [rms < preset.rmsThreshold * 1.5] *)
Definition quiet (preset : Preset) (fr : Frame) : bool :=
  num_lt (getRms (frame_buf fr)) (rmsThreshold preset * (15 / 10))%R.

(** Lines 147-154: silence-gap tracking. *)
Definition silenceGap (isQuiet : bool) (st : State) : State :=
  if isQuiet then
    let st1 := set_silenceFrames (silenceFrames st + 1) st in
    if (SILENCE_GAP_FRAMES <=? silenceFrames st1)%Z
    then set_lastFiredNote None st1
    else st1
  else set_silenceFrames 0 st.

Definition heard (note : option Note) (freq : R) : list event :=
  match note with
  | Some n => if String.eqb (name n) "" then [] else [OnHeard (name n) freq]
  | None => []
  end.

(** Lines 165-172: stability tracking, by note name. *)
Definition track (note : option Note) (st : State) : State :=
  match note with
  | Some n =>
      match stableNote st with
      | Some s =>
          if String.eqb (name n) (name s)
          then set_stable (stableNote st) (stableCount st + 1) st
          else set_stable (Some n) 1 st
      | None => set_stable (Some n) 1 st
      end
  | None => st
  end.

Definition sameNoteAs (s : Note) (last : option string) : bool :=
  match last with
  | Some l => String.eqb (name s) l
  | None => false
  end.

(** Lines 184-198: the firing decision. *)
Definition fire (now : Z) (st : State) : State * list event :=
  match stableNote st with
  | Some s =>
      if (STABLE_FRAMES <=? stableCount st)%Z then
        let timeSinceLastFire := (now - lastFiredTime st)%Z in
        let sameNote := sameNoteAs s (lastFiredNote st) in
        if (timeSinceLastFire <? ANY_NOTE_COOLDOWN_MS)%Z then (st, [])
        else if negb sameNote || (SAME_NOTE_COOLDOWN_MS <? timeSinceLastFire)%Z then
          (set_stable None 0 (set_lastFired (Some (name s)) now st),
           [OnNote (name s) (octave s)])
        else (st, [])
      else (st, [])
  | None => (st, [])
  end.

(** Lines 147-199: what one frame does once its candidate and its
    loudness test are known. *)
Definition gate (isQuiet : bool) (note : option Note) (now : Z) (raf : positive)
  (st : State) : State * list event :=
  let st0 := silenceGap isQuiet st in
  let st1 := track note st0 in
  if (now <? suppressUntil st1)%Z then
    (set_rafId (Some raf) (set_stable None 0 st1), [])
  else
    let (st2, fired) := fire now st1 in
    (set_rafId (Some raf) st2, fired).

(** One run of [loop]. *)
Definition loop (preset : Preset) (fr : Frame) (st : State) : State * list event :=
  let (note, freq) := detect preset fr in
  let (st', fired) := gate (quiet preset fr) note (frame_now fr) (frame_raf fr) st in
  (st', heard note freq ++ fired).

(** The gate over a sequence of frames. *)
Fixpoint runGate (inputs : list (bool * option Note * Z * positive)) (st : State)
  : State * list event :=
  match inputs with
  | [] => (st, [])
  | (isQuiet, note, now, raf) :: rest =>
      let (st1, evs1) := gate isQuiet note now raf st in
      let (st2, evs2) := runGate rest st1 in
      (st2, evs1 ++ evs2)
  end.

Fixpoint run (preset : Preset) (frames : list Frame) (st : State)
  : State * list event :=
  match frames with
  | [] => (st, [])
  | fr :: rest =>
      let (st1, evs1) := loop preset fr st in
      let (st2, evs2) := run preset rest st1 in
      (st2, evs1 ++ evs2)
  end.

End MicUtilsMPM.

(** ** Specification vocabulary *)

(** A MIDI number names a natural note when its name has no sharp. *)
Definition isNatural (midi : Z) : bool := negb (isSharp midi).

(** Distance in semitones between a fractional MIDI value and a MIDI number. *)
Definition semitoneDist (m : R) (k : Z) : R := Rabs (m - IZR k).

(** What the search loop of [freqToNote] has established once the MIDI
    numbers in [seen] have been considered in increasing order: the best
    candidate is the first natural of least distance. *)
Definition best_inv (m : R) (seen : list Z) (b : NoteMapper.best) : Prop :=
  match NoteMapper.bestMidi b with
  | None =>
      NoteMapper.bestDist b = Infinity /\
      forall j, In j seen -> isSharp j = true
  | Some k =>
      NoteMapper.bestDist b = Fin (semitoneDist m k) /\
      In k seen /\ isSharp k = false /\
      forall j, In j seen -> isSharp j = false ->
                (semitoneDist m k <= semitoneDist m j)%R /\
                ((j < k)%Z -> (semitoneDist m k < semitoneDist m j)%R)
  end.

(** [N] samples of a unit-amplitude sine wave with a period of [P] samples:
    [samples[i] = Math.sin((2 * Math.PI * i) / P)]. *)
Definition sineBuffer (P N : nat) : list R :=
  map (fun i => sin (2 * PI * INR i / INR P)%R) (seq 0 N).

(** [f 0 + ... + f (n - 1)] *)
Fixpoint sumTo (f : nat -> R) (n : nat) : R :=
  match n with
  | O => 0%R
  | S n' => (sumTo f n' + f n')%R
  end.

(** The tracking variables are consistent: a count of zero exactly when
    no note is tracked. *)
Definition tracking_ok (st : MicUtils.State) : Prop :=
  match MicUtils.stableNote st with
  | None => MicUtils.stableCount st = 0%Z
  | Some _ => (1 <= MicUtils.stableCount st)%Z
  end.

(** The gate is not tracking the letter of [c]. *)
Definition not_tracking (c : Note) (st : MicUtils.State) : Prop :=
  forall s, MicUtils.stableNote st = Some s -> name s <> name c.

(** Both cooldowns allow a note named [n] to fire at time [now]. *)
Definition cooldowns_ok (n : string) (now : Z) (st : MicUtils.State) : Prop :=
  (MicUtils.ANY_NOTE_COOLDOWN_MS <= now - MicUtils.lastFiredTime st)%Z /\
  (MicUtils.lastFiredNote st <> Some n \/
   (MicUtils.SAME_NOTE_COOLDOWN_MS < now - MicUtils.lastFiredTime st)%Z).

(** A frame of the sustained 440 Hz tone: loud enough for the preset, and
    the detector answers 440 Hz. *)
Definition sustained440 (preset : MicUtils.Preset) (fr : Frame) : Prop :=
  num_ge (getRms (frame_buf fr)) (MicUtils.rmsThreshold preset) = true /\
  frame_pitch fr = Some 440%R.

(** What the gate is fed for a frame. *)
Definition gateInput (preset : MicUtils.Preset) (fr : Frame)
  : option Note * Z * positive :=
  (fst (MicUtils.detect preset fr), frame_now fr, frame_raf fr).

(** The cooldown test of the firing decision, as the code computes it. *)
Definition eligibleb (n : string) (now : Z) (st : MicUtils.State) : bool :=
  negb (now - MicUtils.lastFiredTime st <? MicUtils.ANY_NOTE_COOLDOWN_MS)%Z &&
  (negb (match MicUtils.lastFiredNote st with
         | Some l => String.eqb n l
         | None => false
         end) ||
   (MicUtils.SAME_NOTE_COOLDOWN_MS <? now - MicUtils.lastFiredTime st)%Z).

(** The gate variables as they are when a session begins. *)
Definition fresh_gate (st : MicUtils.State) : Prop :=
  MicUtils.lastFiredNote st = None /\ MicUtils.lastFiredTime st = 0%Z /\
  MicUtils.suppressUntil st = 0%Z /\
  MicUtils.stableNote st = None /\ MicUtils.stableCount st = 0%Z.

(** An input of the gate that carries a candidate named [n], on an open
    gate, no later than [SAME_NOTE_COOLDOWN_MS] after time [T]. *)
Definition within_cooldown (n : string) (T sup : Z)
           (input : option Note * Z * positive) : Prop :=
  let '(note, now, _) := input in
  (exists c, note = Some c /\ name c = n) /\
  (sup <= now <= T + MicUtils.SAME_NOTE_COOLDOWN_MS)%Z.

(** The first browser request of [startMicListening] that throws, if any. *)
Definition firstFailure (br : MicUtils.Browser) : option JsError :=
  match MicUtils.getUserMedia br with
  | Throw e => Some e
  | Normal _ =>
  match MicUtils.newAudioContext br with
  | Throw e => Some e
  | Normal _ =>
  match MicUtils.createAnalyser br with
  | Throw e => Some e
  | Normal _ =>
  match MicUtils.createMediaStreamSource br with
  | Throw e => Some e
  | Normal _ =>
  match MicUtils.connect br with
  | Throw e => Some e
  | Normal _ =>
  match MicUtils.newYIN br with
  | Throw e => Some e
  | Normal _ => None
  end end end end end end.




(** A frame of a unit-amplitude sine wave: 4096 samples with a period of
    128 samples, on which the detector answers 440 Hz. *)
Definition toneFrame (now : Z) (raf : positive) : Frame :=
  mkFrame (sineBuffer 128 4096) (Some 440%R) now raf.


(** ** The rounding revision of [freqToNote]

    The first revisions of [micUtils.js] (autocorrelation and early YIN)
    round to the nearest semitone and skip accidentals, with no snapping. *)

Module MicUtilsRounding.

Definition freqToNote (freq : R) : option Note :=
  if Rltb freq 27 || Rltb 4200 freq then None
  else
    let midi := Math_round (12 * Math_log2 (freq / 440) + 69) in
    let name := noteName midi in
    if includes name "#" then None
    else Some (mkNote name (midi / 12 - 1)%Z).

End MicUtilsRounding.

(** ** [audioUtils.js]: [noteToFreq] *)

Module AudioUtils.

(** [String.prototype.toUpperCase] on the letters a-z; every other
    character is left as it is.  JavaScript also changes some characters
    outside ASCII, but none of them becomes one of the letters A-G, so the
    lookup in [SEMITONES] below is not affected. *)
Definition upperChar (c : ascii) : ascii :=
  let n := nat_of_ascii c in
  if (97 <=? n)%nat && (n <=? 122)%nat then ascii_of_nat (n - 32) else c.

Fixpoint toUpperCase (s : string) : string :=
  match s with
  | EmptyString => EmptyString
  | String c rest => String (upperChar c) (toUpperCase rest)
  end.

(** [SEMITONES[key]]: the semitone offset from C, [undefined] for a key
    that is not a note letter.  The keys looked up are upper-cased, so none
    of the properties an object inherits can be hit. *)
Definition SEMITONES (key : string) : option Z :=
  if String.eqb key "C" then Some 0%Z
  else if String.eqb key "D" then Some 2%Z
  else if String.eqb key "E" then Some 4%Z
  else if String.eqb key "F" then Some 5%Z
  else if String.eqb key "G" then Some 7%Z
  else if String.eqb key "A" then Some 9%Z
  else if String.eqb key "B" then Some 11%Z
  else None.

(** [Math.pow(2, x)] *)
Definition pow2 (x : R) : R := Rpower 2 x.

Definition noteToFreq (note : string) (octave : Z) : option R :=
  match SEMITONES (toUpperCase note) with
  | None => None
  | Some semitone =>
      let midi := ((octave + 1) * 12 + semitone)%Z in
      Some (440 * pow2 (IZR (midi - 69) / 12))%R
  end.

End AudioUtils.

(** The letters of the natural notes. *)
Definition naturalNames : list string :=
  ["C"; "D"; "E"; "F"; "G"; "A"; "B"]%string.




(** The candidates among the inputs of the gate, in order. *)
Definition candidates (inputs : list (option Note * Z * positive)) : list Note :=
  flat_map (fun i => match fst (fst i) with Some n => [n] | None => [] end)
           inputs.

(** The clock reading of an input of the gate. *)
Definition clockOf (i : option Note * Z * positive) : Z := snd (fst i).

(** How many times [onNote] was called. *)
Definition fires (evs : list event) : Z :=
  Z.of_nat (List.length (onNoteCalls evs)).


(** Events that give a resource back to the browser. *)
Definition isRelease (e : event) : bool :=
  match e with
  | OnHeard _ _ | OnNote _ _ => false
  | _ => true
  end.

(** ** [useMic.js]: the hook around the microphone session *)

Module UseMic.

Import MicUtils.

(** The four [useState] cells of the hook. *)
Record Hook : Type := mkHook {
  micActive : bool;
  micError : option string;
  lastHeardNote : option (string * R);
  micMode : string
}.

Definition initial : Hook := mkHook false None None "normal".

(** The [onHeard] callback handed to [startMicListening] is
    [(noteName, freq) => setLastHeardNote({ note: noteName, freq })]: each
    [onHeard] call made by the loop overwrites [lastHeardNote]. *)
Definition onHeardCalls (evs : list event) (h : Hook) : Hook :=
  fold_left
    (fun h e =>
       match e with
       | OnHeard n f => mkHook (micActive h) (micError h) (Some (n, f)) (micMode h)
       | _ => h
       end)
    evs h.

(** [if (err)]: [null] and the empty string are falsy. *)
Definition truthy (err : option string) : bool :=
  match err with
  | Some s => negb (String.eqb s "")
  | None => false
  end.

(** [toggleMic], run to completion on the hook state of the latest render:
    the hook state before, the module variables before, and what the
    browser answers if a session is started. *)
Definition toggleMic (br : Browser) (h : Hook) (st : State)
  : Hook * State * list event :=
  if micActive h then
    let (st1, evs) := stopMicListening st in
    (mkHook false None None (micMode h), st1, evs)
  else
    match startMicListening br (mkOptions (Some (micMode h))) st with
    | (st1, evs, Normal err) =>
        let h1 := onHeardCalls evs h in
        if truthy err
        then (mkHook (micActive h1) err (lastHeardNote h1) (micMode h1), st1, evs)
        else (mkHook true None (lastHeardNote h1) (micMode h1), st1, evs)
    | (st1, evs, Throw _) => (onHeardCalls evs h, st1, evs)
    end.

(** The effect on [songComplete]. *)
Definition songCompleteEffect (songComplete : bool) (h : Hook) (st : State)
  : Hook * State * list event :=
  if songComplete && micActive h then
    let (st1, evs) := stopMicListening st in
    (mkHook false (micError h) (lastHeardNote h) (micMode h), st1, evs)
  else (h, st, []).

End UseMic.

(** The module variables and the events after [startMicListening]. *)
Definition startedState (br : MicUtils.Browser) (options : MicUtils.Options)
           (st : MicUtils.State) : MicUtils.State :=
  fst (fst (MicUtils.startMicListening br options st)).

Definition startedEvents (br : MicUtils.Browser) (options : MicUtils.Options)
           (st : MicUtils.State) : list event :=
  snd (fst (MicUtils.startMicListening br options st)).

(** Two calls of [toggleMic] in a row, each on the state the one before
    left, with everything they emitted. *)
Definition toggleTwice (br1 br2 : MicUtils.Browser) (h : UseMic.Hook)
           (st : MicUtils.State) : UseMic.Hook * MicUtils.State * list event :=
  let '(h1, st1, evs1) := UseMic.toggleMic br1 h st in
  let '(h2, st2, evs2) := UseMic.toggleMic br2 h1 st1 in
  (h2, st2, evs1 ++ evs2).

(** What can happen to a mounted hook: the user toggles the microphone,
    the song completes (or not), or the browser runs the pending frame
    callback of the session.  The callback only runs while one is pending. *)
Inductive HookAction : Type :=
| Toggle (br : MicUtils.Browser)
| SongComplete (songComplete : bool)
| FrameTick (preset : MicUtils.Preset) (fr : Frame).

Definition hookStep (hs : UseMic.Hook * MicUtils.State) (a : HookAction)
  : UseMic.Hook * MicUtils.State :=
  let (h, st) := hs in
  match a with
  | Toggle br => fst (UseMic.toggleMic br h st)
  | SongComplete b => fst (UseMic.songCompleteEffect b h st)
  | FrameTick preset fr =>
      match MicUtils.rafId st with
      | Some _ =>
          let (st', evs) := MicUtils.loop preset fr st in
          (UseMic.onHeardCalls evs h, st')
      | None => (h, st)
      end
  end.

Definition hookRun (acts : list HookAction) (hs : UseMic.Hook * MicUtils.State)
  : UseMic.Hook * MicUtils.State :=
  fold_left hookStep acts hs.

(** The module holds a live session. *)
Definition sessionLive (st : MicUtils.State) : Prop :=
  MicUtils.stream st <> None /\ MicUtils.audioCtx st <> None /\
  MicUtils.source st <> None /\ MicUtils.rafId st <> None.

Definition isOnHeard (e : event) : bool :=
  match e with
  | OnHeard _ _ => true
  | _ => false
  end.

(** The [onHeard] invocations among a list of events. *)
Definition heardReports (evs : list event) : list event := filter isOnHeard evs.

(** ** The note pools and the song generator *)

(** [Math.floor] *)
Definition Math_floor (x : R) : Z := Int_part x.

Module NoteUtils.

Record PoolNote : Type := mkPoolNote {
  note : string;
  octave : Z;
  vexKey : string;
  pianoIndex : Z
}.

Definition TREBLE_NOTES : list PoolNote :=
  [mkPoolNote "C" 4 "c/4" 0; mkPoolNote "D" 4 "d/4" 1;
   mkPoolNote "E" 4 "e/4" 2; mkPoolNote "F" 4 "f/4" 3;
   mkPoolNote "G" 4 "g/4" 4; mkPoolNote "A" 4 "a/4" 5;
   mkPoolNote "B" 4 "b/4" 6; mkPoolNote "C" 5 "c/5" 7;
   mkPoolNote "D" 5 "d/5" 8; mkPoolNote "E" 5 "e/5" 9;
   mkPoolNote "F" 5 "f/5" 10; mkPoolNote "G" 5 "g/5" 11].

Definition BASS_NOTES : list PoolNote :=
  [mkPoolNote "G" 2 "g/2" 4; mkPoolNote "A" 2 "a/2" 5;
   mkPoolNote "B" 2 "b/2" 6; mkPoolNote "C" 3 "c/3" 7;
   mkPoolNote "D" 3 "d/3" 8; mkPoolNote "E" 3 "e/3" 9;
   mkPoolNote "F" 3 "f/3" 10; mkPoolNote "G" 3 "g/3" 11;
   mkPoolNote "A" 3 "a/3" 12; mkPoolNote "B" 3 "b/3" 13].


(** [n.note === prevNote.note && n.octave === prevNote.octave] *)
Definition sameAs (n prevNote : PoolNote) : bool :=
  String.eqb (note n) (note prevNote) && Z.eqb (octave n) (octave prevNote).

(** [getRandomNote(prevNote, pool)], where [rnd] is what [Math.random()]
    answers; an index outside the candidates reads [undefined]. *)
Definition getRandomNote (rnd : R) (prevNote : option PoolNote)
           (pool : list PoolNote) : option PoolNote :=
  let candidates :=
    match prevNote with
    | Some p => filter (fun n => negb (sameAs n p)) pool
    | None => pool
    end in
  let idx := Math_floor (rnd * INR (List.length candidates)) in
  if (idx <? 0)%Z then None else nth_error candidates (Z.to_nat idx).

(** [checkAnswer(targetNote, clickedNoteName)] *)
Definition checkAnswer (targetNote : PoolNote) (clickedNoteName : string) : bool :=
  String.eqb (note targetNote) clickedNoteName.



End NoteUtils.


(** A pool with two different notes in it. *)
Definition twoNotes (pool : list NoteUtils.PoolNote) : Prop :=
  exists a b, In a pool /\ In b pool /\ NoteUtils.sameAs a b = false.

(** * Verification *)

(** ** Facts about the numeric helpers *)

Open Scope R_scope.

Lemma Rltb_true (x y : R) : Rltb x y = true <-> x < y.
Proof.
  unfold Rltb. destruct (Rlt_dec x y); split; intros; try easy.
Qed.

Lemma Rltb_false (x y : R) : Rltb x y = false <-> y <= x.
Proof.
  unfold Rltb. destruct (Rlt_dec x y); split; intros; try easy; lra.
Qed.

Lemma Rleb_true (x y : R) : Rleb x y = true <-> x <= y.
Proof.
  unfold Rleb. destruct (Rle_dec x y); split; intros; try easy.
Qed.

Lemma Rleb_false (x y : R) : Rleb x y = false <-> y < x.
Proof.
  unfold Rleb. destruct (Rle_dec x y); split; intros; try easy; lra.
Qed.

Lemma Math_round_bounds (x : R) :
  IZR (Math_round x) <= x + 1 / 2 < IZR (Math_round x) + 1.
Proof.
  unfold Math_round. destruct (base_Int_part (x + 1 / 2)). lra.
Qed.

Lemma Math_round_unique (x : R) (z : Z) :
  IZR z <= x + 1 / 2 < IZR z + 1 -> Math_round x = z.
Proof.
  intros H. unfold Math_round. symmetry. apply Int_part_spec. lra.
Qed.

Lemma pitchClass_mod (midi : Z) : pitchClass midi = (midi mod 12)%Z.
Proof.
  unfold pitchClass.
  pose proof (Z.rem_bound_abs midi 12 ltac:(lia)) as Hb.
  assert (Hr : ((Z.rem midi 12 + 12) mod 12 = midi mod 12)%Z).
  { pose proof (Z.quot_rem' midi 12) as Hq.
    replace (midi mod 12)%Z with ((Z.rem midi 12 + (Z.quot midi 12) * 12) mod 12)%Z
      by (f_equal; lia).
    replace (Z.rem midi 12 + 12)%Z with (Z.rem midi 12 + 1 * 12)%Z by lia.
    now rewrite !Z.mod_add by lia. }
  rewrite <- Hr. apply Z.rem_mod_nonneg; lia.
Qed.

Lemma pitchClass_range (midi : Z) : (0 <= pitchClass midi < 12)%Z.
Proof. rewrite pitchClass_mod. apply Z.mod_pos_bound. lia. Qed.

Lemma isSharp_class (midi : Z) :
  isSharp midi = negb (naturalClass (midi mod 12)).
Proof.
  unfold isSharp, noteName. rewrite pitchClass_mod.
  pose proof (Z.mod_pos_bound midi 12 ltac:(lia)) as Hb.
  assert (H : In (midi mod 12)%Z [0; 1; 2; 3; 4; 5; 6; 7; 8; 9; 10; 11]%Z).
  { simpl. lia. }
  simpl in H.
  repeat (destruct H as [<- | H]; [reflexivity |]). contradiction.
Qed.

Lemma for_range_5 (A : Type) (c : Z) (body : Z -> A -> A) (acc : A) :
  for_range (c - 2) (c + 2) body acc =
  body (c + 2)%Z (body (c + 1)%Z (body c (body (c - 1)%Z (body (c - 2)%Z acc)))).
Proof.
  unfold for_range.
  replace (c + 2 - (c - 2) + 1)%Z with 5%Z by lia.
  change (Z.to_nat 5) with 5%nat. cbn [for_upto].
  replace (c - 2 + 1)%Z with (c - 1)%Z by lia.
  replace (c - 1 + 1)%Z with c by lia.
  replace (c + 1 + 1)%Z with (c + 2)%Z by lia.
  reflexivity.
Qed.

(** ** The search loop of [freqToNote] *)

Section SnapLoop.

Import NoteMapper.

Variable m : R.

Lemma best_inv_start : best_inv m [] best0.
Proof. split; [reflexivity | intros j []]. Qed.

Lemma best_inv_step (seen : list Z) (b : best) (i : Z) :
  best_inv m seen b ->
  (forall j, In j seen -> (j < i)%Z) ->
  best_inv m (i :: seen) (consider m i b).
Proof.
  intros Hinv Hlt. unfold consider.
  destruct (isSharp i) eqn:Hsharp.
  - (* a sharp is skipped *)
    unfold best_inv in *. destruct (bestMidi b) as [k |].
    + destruct Hinv as (Hd & Hin & Hk & Hmin).
      split; [exact Hd |]. split; [right; exact Hin |]. split; [exact Hk |].
      intros j [<- | Hj] Hnat; [congruence | now apply Hmin].
    + destruct Hinv as (Hd & Hall). split; [exact Hd |].
      intros j [<- | Hj]; auto.
  - fold (semitoneDist m i).
    unfold best_inv in Hinv. destruct b as [[k |] d]; simpl in *.
    + destruct Hinv as (-> & Hin & Hk & Hmin). simpl.
      destruct (Rltb (semitoneDist m i) (semitoneDist m k)) eqn:Hcmp.
      * (* strictly closer: the new candidate replaces the old one *)
        apply Rltb_true in Hcmp. unfold best_inv; simpl.
        split; [reflexivity |]. split; [now left |]. split; [exact Hsharp |].
        intros j [<- | Hj] Hnat.
        -- split; [lra | lia].
        -- destruct (Hmin j Hj Hnat). split; [lra | intros _; lra].
      * (* not closer: the earlier candidate stays *)
        apply Rltb_false in Hcmp. unfold best_inv; simpl.
        split; [reflexivity |]. split; [now right |]. split; [exact Hk |].
        intros j [<- | Hj] Hnat.
        -- split; [lra |]. specialize (Hlt k Hin). lia.
        -- now apply Hmin.
    + destruct Hinv as (-> & Hall). simpl. unfold best_inv; simpl.
      split; [reflexivity |]. split; [now left |]. split; [exact Hsharp |].
      intros j [<- | Hj] Hnat.
      * split; [lra | lia].
      * rewrite (Hall j Hj) in Hnat. discriminate.
Qed.

Lemma best_inv_window (c : Z) :
  best_inv m [c + 2; c + 1; c; c - 1; c - 2]%Z
           (for_range (c - 2) (c + 2) (consider m) best0).
Proof.
  rewrite for_range_5.
  repeat (apply best_inv_step; [| simpl; intros j Hj; lia]).
  apply best_inv_start.
Qed.

(** What [snapMidi] answers, in terms of the window around the rounded
    MIDI value. *)
Lemma snapMidi_spec (tol : R) :
  let c := Math_round m in
  match snapMidi m tol with
  | None =>
      forall j, (c - 2 <= j <= c + 2)%Z -> isSharp j = false ->
                tol < semitoneDist m j
  | Some n =>
      exists k, n = noteOfMidi k /\ (c - 2 <= k <= c + 2)%Z /\
                isSharp k = false /\ semitoneDist m k <= tol /\
                forall j, (c - 2 <= j <= c + 2)%Z -> isSharp j = false ->
                          semitoneDist m k <= semitoneDist m j /\
                          ((j < k)%Z -> semitoneDist m k < semitoneDist m j)
  end.
Proof.
  intros c. unfold snapMidi. fold c.
  pose proof (best_inv_window c) as Hinv.
  assert (Hwin : forall j, (c - 2 <= j <= c + 2)%Z ->
                           In j [c + 2; c + 1; c; c - 1; c - 2]%Z).
  { intros j Hj. simpl. lia. }
  unfold best_inv in Hinv.
  destruct (bestMidi (for_range (c - 2) (c + 2) (consider m) best0)) as [k |].
  - destruct Hinv as (Hd & Hin & Hk & Hmin). rewrite Hd. simpl.
    destruct (Rltb tol (semitoneDist m k)) eqn:Hcmp.
    + apply Rltb_true in Hcmp. intros j Hj Hnat.
      destruct (Hmin j (Hwin j Hj) Hnat). lra.
    + apply Rltb_false in Hcmp. exists k.
      split; [reflexivity |]. split; [simpl in Hin; lia |].
      split; [exact Hk |]. split; [exact Hcmp |].
      intros j Hj Hnat. now apply Hmin; [apply Hwin |].
  - destruct Hinv as (_ & Hall). intros j Hj Hnat.
    rewrite (Hall j (Hwin j Hj)) in Hnat. discriminate.
Qed.

End SnapLoop.

(** ** NoteMapper *)

Section NoteMapperFacts.

Import NoteMapper.

Ltac case_abs :=
  unfold semitoneDist, Rabs in *;
  repeat match goal with
         | |- context [Rcase_abs ?x] => destruct (Rcase_abs x)
         | H : context [Rcase_abs ?x] |- _ => destruct (Rcase_abs x)
         end.

Lemma freqToNote_in_range (freq tol : R) :
  27 <= freq <= 4200 ->
  freqToNote freq tol = snapMidi (midiFloatOf freq) tol.
Proof.
  intros [Hlo Hhi]. unfold freqToNote.
  assert (H1 : Rltb freq 27 = false) by (apply Rltb_false; lra).
  assert (H2 : Rltb 4200 freq = false) by (apply Rltb_false; lra).
  now rewrite H1, H2.
Qed.

Lemma freqToNote_out_of_range (freq tol : R) :
  freq < 27 \/ 4200 < freq -> freqToNote freq tol = None.
Proof.
  intros [H | H]; unfold freqToNote.
  - apply Rltb_true in H. now rewrite H.
  - apply Rltb_true in H. rewrite H. now rewrite orb_true_r.
Qed.

(** A MIDI number within half a semitone lies in the search window. *)
Lemma near_in_window (m : R) (n : Z) :
  semitoneDist m n <= 1 / 2 ->
  (Math_round m - 2 <= n <= Math_round m + 2)%Z.
Proof.
  intros Hd. pose proof (Math_round_bounds m) as [Hlo Hhi].
  assert (H1 : IZR (Math_round m) < IZR (n + 2)).
  { rewrite plus_IZR. case_abs; lra. }
  assert (H2 : IZR (n - 1) < IZR (Math_round m)).
  { rewrite minus_IZR. case_abs; lra. }
  apply lt_IZR in H1, H2. lia.
Qed.

(** The note [snapMidi] settles on when a natural lies within half a
    semitone: that natural, or the natural one semitone below when the
    pitch sits exactly half-way between the two. *)
Lemma snapMidi_near_natural (m tol : R) (n : Z) :
  isNatural n = true ->
  semitoneDist m n <= 1 / 2 ->
  semitoneDist m n <= tol ->
  snapMidi m tol = Some (noteOfMidi n) \/
  (m = IZR n - 1 / 2 /\ isNatural (n - 1) = true /\
   snapMidi m tol = Some (noteOfMidi (n - 1))).
Proof.
  intros Hnat Hd Htol.
  assert (Hn : isSharp n = false).
  { unfold isNatural in Hnat. now destruct (isSharp n). }
  pose proof (near_in_window m n Hd) as Hwin.
  pose proof (snapMidi_spec m tol) as Hspec. cbv zeta in Hspec.
  destruct (snapMidi m tol) as [note |].
  - destruct Hspec as (k & -> & Hk & Hksharp & Hktol & Hmin).
    destruct (Hmin n Hwin Hn) as [Hle Hstrict].
    assert (Hk1 : IZR (n - 2) < IZR k).
    { rewrite minus_IZR. case_abs; lra. }
    assert (Hk2 : IZR k < IZR (n + 2)).
    { rewrite plus_IZR. case_abs; lra. }
    apply lt_IZR in Hk1, Hk2.
    assert (Hcases : k = n \/ k = (n + 1)%Z \/ k = (n - 1)%Z) by lia.
    destruct Hcases as [-> | [-> | ->]].
    + now left.
    + exfalso. specialize (Hstrict ltac:(lia)).
      unfold semitoneDist in Hstrict, Hd. rewrite plus_IZR in Hstrict.
      case_abs; lra.
    + right. split; [| split].
      * unfold semitoneDist in Hle, Hd. rewrite minus_IZR in Hle.
        case_abs; lra.
      * unfold isNatural. now rewrite Hksharp.
      * reflexivity.
  - exfalso. specialize (Hspec n Hwin Hn). lra.
Qed.

(** Rational bounds on [Math_log2], read off powers of the argument. *)
Lemma ln2_pos : 0 < ln 2.
Proof. pose proof ln_lt_2. lra. Qed.

Lemma ln_inv_pow2 (p : nat) : ln (/ 2 ^ p) = - (INR p * ln 2).
Proof.
  rewrite ln_Rinv by (apply pow_lt; lra). now rewrite ln_pow by lra.
Qed.

Lemma log2_lower (x : R) (p q : nat) :
  0 < x -> / 2 ^ p < x ^ q -> - INR p < INR q * Math_log2 x.
Proof.
  intros Hx Hlt.
  assert (H : ln (/ 2 ^ p) < ln (x ^ q)).
  { apply ln_increasing; [apply Rinv_0_lt_compat, pow_lt; lra | exact Hlt]. }
  rewrite ln_inv_pow2, ln_pow in H by exact Hx.
  pose proof ln2_pos as Hln2. unfold Math_log2.
  apply Rmult_lt_reg_r with (ln 2); [exact Hln2 |].
  replace (INR q * (ln x / ln 2) * ln 2) with (INR q * ln x) by (field; lra).
  lra.
Qed.

Lemma log2_upper (x : R) (p q : nat) :
  0 < x -> x ^ q < / 2 ^ p -> INR q * Math_log2 x < - INR p.
Proof.
  intros Hx Hlt.
  assert (H : ln (x ^ q) < ln (/ 2 ^ p)).
  { apply ln_increasing; [apply pow_lt; exact Hx | exact Hlt]. }
  rewrite ln_inv_pow2, ln_pow in H by exact Hx.
  pose proof ln2_pos as Hln2. unfold Math_log2.
  apply Rmult_lt_reg_r with (ln 2); [exact Hln2 |].
  replace (INR q * (ln x / ln 2) * ln 2) with (INR q * ln x) by (field; lra).
  lra.
Qed.

Lemma log2_lower_pos (x : R) (p q : nat) :
  0 < x -> 2 ^ p < x ^ q -> INR p < INR q * Math_log2 x.
Proof.
  intros Hx Hlt.
  assert (H : ln (2 ^ p) < ln (x ^ q)).
  { apply ln_increasing; [apply pow_lt; lra | exact Hlt]. }
  rewrite !ln_pow in H by lra.
  pose proof ln2_pos as Hln2. unfold Math_log2.
  apply Rmult_lt_reg_r with (ln 2); [exact Hln2 |].
  replace (INR q * (ln x / ln 2) * ln 2) with (INR q * ln x) by (field; lra).
  lra.
Qed.

Lemma log2_upper_pos (x : R) (p q : nat) :
  0 < x -> x ^ q < 2 ^ p -> INR q * Math_log2 x < INR p.
Proof.
  intros Hx Hlt.
  assert (H : ln (x ^ q) < ln (2 ^ p)).
  { apply ln_increasing; [apply pow_lt; exact Hx | exact Hlt]. }
  rewrite !ln_pow in H by lra.
  pose proof ln2_pos as Hln2. unfold Math_log2.
  apply Rmult_lt_reg_r with (ln 2); [exact Hln2 |].
  replace (INR q * (ln x / ln 2) * ln 2) with (INR q * ln x) by (field; lra).
  lra.
Qed.

Lemma log2_pow2 (y : R) : Math_log2 (Rpower 2 y) = y.
Proof.
  unfold Math_log2. rewrite ln_Rpower. pose proof ln2_pos. field. lra.
Qed.

(** 277.18 Hz sits on C#4: its MIDI value is between 60.6 and 61.5. *)
Lemma midiFloatOf_Csharp4 :
  606 / 10 < midiFloatOf (27718 / 100) < 615 / 10.
Proof.
  unfold midiFloatOf.
  assert (Hx : 0 < 27718 / 100 / 440) by lra.
  pose proof (@log2_lower _ 7 10 Hx ltac:(lra)) as Hlo.
  pose proof (@log2_upper _ 5 8 Hx ltac:(lra)) as Hup.
  simpl INR in Hlo, Hup. lra.
Qed.


(** 440 Hz is A4 exactly. *)
Lemma midiFloatOf_440 : midiFloatOf 440 = 69.
Proof.
  unfold midiFloatOf, Math_log2.
  replace (440 / 440) with 1 by lra. rewrite ln_1. lra.
Qed.


(** *** The unit tests of [freqToNote], replayed on the model *)

(** A frequency whose MIDI value is pinned between two bounds close to a
    natural note is mapped to that note. *)
Lemma freqToNote_between (freq tol lo hi : R) (n : Z) :
  27 <= freq <= 4200 ->
  isNatural n = true ->
  lo < midiFloatOf freq < hi ->
  IZR n - 1 / 2 <= lo -> hi <= IZR n + 1 / 2 ->
  IZR n - tol <= lo -> hi <= IZR n + tol ->
  freqToNote freq tol = Some (noteOfMidi n).
Proof.
  intros Hrange Hnat [Hlo Hhi] H1 H2 H3 H4.
  rewrite freqToNote_in_range by exact Hrange.
  destruct (@snapMidi_near_natural (midiFloatOf freq) tol n Hnat)
    as [H | (Hm & _)].
  - case_abs; lra.
  - case_abs; lra.
  - exact H.
  - lra.
Qed.

Ltac pin_log2 lower upper :=
  unfold midiFloatOf;
  match goal with
  | |- _ < 12 * Math_log2 ?x + 69 < _ =>
      let Hx := fresh "Hx" in
      assert (Hx : 0 < x) by lra;
      let Hlo := fresh "Hlo" in
      let Hup := fresh "Hup" in
      pose proof (lower x Hx) as Hlo;
      pose proof (upper x Hx) as Hup;
      specialize (Hlo ltac:(lra)); specialize (Hup ltac:(lra));
      simpl INR in Hlo, Hup; lra
  end.

Example test_C4 : freqToNote (26163 / 100) (45 / 100) = Some (mkNote "C" 4).
Proof.
  apply (@freqToNote_between _ _ 60 (6043 / 100) 60); try reflexivity; try lra.
  pin_log2 (fun x H => @log2_lower x 3 4 H) (fun x H => @log2_upper x 5 7 H).
Qed.

Example test_flat_C4 : freqToNote 260 (45 / 100) = Some (mkNote "C" 4).
Proof.
  apply (@freqToNote_between _ _ (596 / 10) 60 60); try reflexivity; try lra.
  pin_log2 (fun x H => @log2_lower x 7 9 H) (fun x H => @log2_upper x 3 4 H).
Qed.

Example test_G4 : freqToNote 392 (45 / 100) = Some (mkNote "G" 4).
Proof.
  apply (@freqToNote_between _ _ (666 / 10) (673 / 10) 67); try reflexivity; try lra.
  pin_log2 (fun x H => @log2_lower x 1 5 H) (fun x H => @log2_upper x 1 7 H).
Qed.

Example test_sharp_C4 : freqToNote 265 (45 / 100) = Some (mkNote "C" 4).
Proof.
  apply (@freqToNote_between _ _ 60 (6045 / 100) 60); try reflexivity; try lra.
  pin_log2 (fun x H => @log2_lower x 3 4 H) (fun x H => @log2_upper x 5 7 H).
Qed.

Example test_flat_D4 : freqToNote 291 (45 / 100) = Some (mkNote "D" 4).
Proof.
  apply (@freqToNote_between _ _ (618 / 10) (6215 / 100) 62); try reflexivity; try lra.
  pin_log2 (fun x H => @log2_lower x 3 5 H) (fun x H => @log2_upper x 4 7 H).
Qed.

Example test_A0 : freqToNote (275 / 10) (45 / 100) = Some (mkNote "A" 0).
Proof.
  apply (@freqToNote_between _ _ (2055 / 100) (2145 / 100) 21); try reflexivity; try lra.
  pin_log2 (fun x H => @log2_lower x 109 27 H) (fun x H => @log2_upper x 107 27 H).
Qed.

Example test_C5 : freqToNote (52325 / 100) (45 / 100) = Some (mkNote "C" 5).
Proof.
  apply (@freqToNote_between _ _ (716 / 10) 72 72); try reflexivity; try lra.
  pin_log2 (fun x H => @log2_lower_pos x 2 9 H) (fun x H => @log2_upper_pos x 1 4 H).
Qed.

Example test_G2 : freqToNote 98 (45 / 100) = Some (mkNote "G" 2).
Proof.
  apply (@freqToNote_between _ _ (426 / 10) (4329 / 100) 43); try reflexivity; try lra.
  pin_log2 (fun x H => @log2_lower x 11 5 H) (fun x H => @log2_upper x 15 7 H).
Qed.

Example test_Csharp4_rejected : freqToNote (27718 / 100) (5 / 10) = None.
Proof.
  rewrite freqToNote_in_range by lra.
  pose proof (snapMidi_spec (midiFloatOf (27718 / 100)) (5 / 10)) as Hspec.
  cbv zeta in Hspec.
  destruct (snapMidi (midiFloatOf (27718 / 100)) (5 / 10)) as [note |];
    [| reflexivity].
  destruct Hspec as (k & _ & _ & Hk & Hktol & _).
  pose proof midiFloatOf_Csharp4 as [Hlo Hhi].
  assert (Hn : (k <= 60 \/ k = 61 \/ 62 <= k)%Z) by lia.
  destruct Hn as [Hn | [-> | Hn]].
  - apply IZR_le in Hn. case_abs; lra.
  - discriminate Hk.
  - apply IZR_le in Hn. case_abs; lra.
Qed.

(** *** Claim C3 *)





(** *** Claim C4 *)



End NoteMapperFacts.

(** ** RMS energy *)

Section RmsFacts.

Lemma fold_sumSquares (l : list R) (a : R) :
  fold_left (fun sum x => sum + x * x) l a = a + sumSquares l.
Proof.
  unfold sumSquares. revert a.
  induction l as [| x l IH]; intros a; simpl.
  - lra.
  - rewrite (IH (a + x * x)), (IH (0 + x * x)). lra.
Qed.

Lemma sumSquares_cons (x : R) (l : list R) :
  sumSquares (x :: l) = x * x + sumSquares l.
Proof.
  unfold sumSquares at 1. simpl. rewrite fold_sumSquares. lra.
Qed.

Lemma sumSquares_app (l1 l2 : list R) :
  sumSquares (l1 ++ l2) = sumSquares l1 + sumSquares l2.
Proof.
  induction l1 as [| x l1 IH]; simpl.
  - unfold sumSquares at 2. simpl. lra.
  - rewrite !sumSquares_cons, IH. lra.
Qed.

Lemma sumSquares_repeat (c : R) (n : nat) :
  sumSquares (repeat c n) = INR n * (c * c).
Proof.
  induction n as [| n IH].
  - simpl. unfold sumSquares. simpl. lra.
  - change (repeat c (S n)) with (c :: repeat c n).
    rewrite sumSquares_cons, IH, S_INR. lra.
Qed.

Lemma getRms_nonempty (buf : list R) :
  buf <> [] ->
  getRms buf = Num (sqrt (sumSquares buf / INR (List.length buf))).
Proof.
  intros H. unfold getRms. destruct buf; [contradiction | reflexivity].
Qed.

(** A buffer filled with a non-negative constant has that constant as RMS. *)
Lemma getRms_constant (c : R) (n : nat) :
  0 <= c -> (0 < n)%nat -> getRms (repeat c n) = Num c.
Proof.
  intros Hc Hn.
  rewrite getRms_nonempty by (destruct n; [lia | discriminate]).
  rewrite repeat_length, sumSquares_repeat.
  assert (Hn' : 0 < INR n) by (apply lt_0_INR; exact Hn).
  replace (INR n * (c * c) / INR n) with (c * c) by (field; lra).
  now rewrite sqrt_square.
Qed.

Lemma sumSquares_map_seq (g : nat -> R) (n : nat) :
  sumSquares (map g (seq 0 n)) = sumTo (fun i => g i * g i) n.
Proof.
  induction n as [| n IH].
  - reflexivity.
  - rewrite seq_S, map_app, sumSquares_app, IH. simpl.
    rewrite sumSquares_cons. unfold sumSquares. simpl. lra.
Qed.

Lemma sumTo_add (f : nat -> R) (n k : nat) :
  sumTo f (n + k) = sumTo f n + sumTo (fun i => f (n + i)%nat) k.
Proof.
  induction k as [| k IH].
  - rewrite Nat.add_0_r. simpl. lra.
  - rewrite Nat.add_succ_r. simpl. rewrite IH. lra.
Qed.

Lemma sumTo_plus (f g : nat -> R) (n : nat) :
  sumTo (fun i => f i + g i) n = sumTo f n + sumTo g n.
Proof.
  induction n as [| n IH]; simpl; [| rewrite IH]; lra.
Qed.

Lemma sumTo_const (f : nat -> R) (c : R) (n : nat) :
  (forall i, f i = c) -> sumTo f n = INR n * c.
Proof.
  intros H. induction n as [| n IH].
  - simpl. lra.
  - rewrite S_INR. simpl. rewrite IH, H. lra.
Qed.

Section Sine.

(** A quarter period of [q] samples. *)
Variable q : nat.
Hypothesis q_pos : (0 < q)%nat.

Let s (i : nat) : R :=
  sin (2 * PI * INR i / INR (4 * q)) * sin (2 * PI * INR i / INR (4 * q)).

(** Samples a quarter period apart have squares adding up to one. *)
Lemma quarter_shift (i : nat) : s i + s (i + q) = 1.
Proof.
  unfold s.
  assert (Hq : 0 < INR q) by (apply lt_0_INR; exact q_pos).
  assert (H4 : INR (4 * q) = 4 * INR q) by (rewrite mult_INR; simpl; lra).
  replace (2 * PI * INR (i + q) / INR (4 * q))
    with (2 * PI * INR i / INR (4 * q) + PI / 2).
  2:{ rewrite plus_INR, H4. field. lra. }
  rewrite sin_plus, cos_PI2, sin_PI2.
  pose proof (sin2_cos2 (2 * PI * INR i / INR (4 * q))) as H.
  unfold Rsqr in H. lra.
Qed.

(** Any half period of squared samples adds up to [q]. *)
Lemma half_period (a : nat) :
  sumTo (fun i => s (a + i)) (q + q) = INR q.
Proof.
  rewrite sumTo_add, <- sumTo_plus.
  rewrite (@sumTo_const _ 1); [lra |].
  intros i. replace (a + (q + i))%nat with ((a + i) + q)%nat by lia.
  apply quarter_shift.
Qed.

Lemma half_periods (t : nat) :
  sumTo s (t * (q + q)) = INR t * INR q.
Proof.
  induction t as [| t IH].
  - simpl. lra.
  - replace (S t * (q + q))%nat with (t * (q + q) + (q + q))%nat by lia.
    rewrite sumTo_add, IH, half_period, S_INR. lra.
Qed.

(** Whole periods of a unit sine wave have RMS [1 / sqrt 2]. *)
Lemma getRms_sine (k : nat) :
  (0 < k)%nat ->
  getRms (sineBuffer (4 * q) (k * (4 * q))) = Num (/ sqrt 2).
Proof.
  intros Hk.
  assert (Hlen : List.length (sineBuffer (4 * q) (k * (4 * q))) = (k * (4 * q))%nat).
  { unfold sineBuffer. now rewrite length_map, length_seq. }
  rewrite getRms_nonempty.
  2:{ intros Hnil. rewrite Hnil in Hlen. simpl in Hlen. nia. }
  rewrite Hlen. unfold sineBuffer. rewrite sumSquares_map_seq.
  fold s. replace (k * (4 * q))%nat with ((2 * k) * (q + q))%nat at 1 by lia.
  rewrite half_periods.
  assert (Hq : 0 < INR q) by (apply lt_0_INR; exact q_pos).
  assert (Hk' : 0 < INR k) by (apply lt_0_INR; exact Hk).
  rewrite !mult_INR. simpl INR.
  replace ((1 + 1) * INR k * INR q / (INR k * ((1 + 1 + 1 + 1) * INR q)))
    with (/ 2) by (field; lra).
  f_equal. rewrite sqrt_inv. reflexivity.
Qed.

End Sine.

Lemma inv_sqrt2_bound : 7 / 10 < / sqrt 2.
Proof.
  assert (H : sqrt 2 < 10 / 7).
  { replace (10 / 7) with (sqrt (10 / 7 * (10 / 7))) by (apply sqrt_square; lra).
    apply sqrt_lt_1_alt. lra. }
  assert (Hpos : 0 < sqrt 2) by (apply sqrt_lt_R0; lra).
  replace (7 / 10) with (/ (10 / 7)) by lra.
  apply Rinv_lt_contravar; [apply Rmult_lt_0_compat; lra | exact H].
Qed.

(** *** Claim C7 *)




End RmsFacts.

(** ** The stability gate of the YIN revision *)

Section GateFacts.

Import MicUtils.

Lemma track_keeps (note : option Note) (st : State) :
  suppressUntil (track note st) = suppressUntil st /\
  lastFiredNote (track note st) = lastFiredNote st /\
  lastFiredTime (track note st) = lastFiredTime st.
Proof.
  unfold track. destruct note as [n |]; [| easy].
  destruct (stableNote st) as [s |]; [| easy].
  destruct (String.eqb (name n) (name s)); easy.
Qed.

Lemma track_fresh (c : Note) (st : State) :
  not_tracking c st -> track (Some c) st = set_stable (Some c) 1 st.
Proof.
  intros Hfresh. unfold track.
  destruct (stableNote st) as [s |] eqn:Hs; [| reflexivity].
  destruct (String.eqb_spec (name c) (name s)) as [Heq | Hne]; [| reflexivity].
  exfalso. now apply (Hfresh s Hs).
Qed.

Lemma track_same (c s : Note) (st : State) :
  stableNote st = Some s -> name c = name s ->
  track (Some c) st = set_stable (Some s) (stableCount st + 1) st.
Proof.
  intros Hs Heq. unfold track. rewrite Hs, Heq, String.eqb_refl. reflexivity.
Qed.

Lemma tracking_ok_track (note : option Note) (st : State) :
  tracking_ok st -> tracking_ok (track note st).
Proof.
  unfold tracking_ok, track. intros H.
  destruct note as [n |]; [| exact H].
  destruct (stableNote st) as [s |] eqn:Hs; simpl; [| lia].
  destruct (String.eqb (name n) (name s)); simpl; lia.
Qed.

Lemma sameNoteAs_true (s : Note) (last : option string) :
  sameNoteAs s last = true <-> last = Some (name s).
Proof.
  unfold sameNoteAs. destruct last as [l |]; [| easy].
  destruct (String.eqb_spec (name s) l); split; intros H; try easy; congruence.
Qed.

(** The firing decision, case by case. *)
Lemma fire_low_count (now : Z) (st : State) :
  (stableCount st < STABLE_FRAMES)%Z -> fire now st = (st, []).
Proof.
  intros H. unfold fire. destruct (stableNote st); [| reflexivity].
  destruct (Z.leb_spec STABLE_FRAMES (stableCount st)); [lia | reflexivity].
Qed.


Lemma fire_eligible (now : Z) (s : Note) (st : State) :
  stableNote st = Some s ->
  (STABLE_FRAMES <= stableCount st)%Z ->
  cooldowns_ok (name s) now st ->
  fire now st =
  (set_stable None 0 (set_lastFired (Some (name s)) now st),
   [OnNote (name s) (octave s)]).
Proof.
  intros Hs Hc [Hany Hsame]. unfold fire. rewrite Hs.
  destruct (Z.leb_spec STABLE_FRAMES (stableCount st)); [| lia].
  destruct (Z.ltb_spec (now - lastFiredTime st) ANY_NOTE_COOLDOWN_MS); [lia |].
  destruct (sameNoteAs s (lastFiredNote st)) eqn:Hsn; [| reflexivity].
  apply sameNoteAs_true in Hsn. simpl.
  destruct Hsame as [Hne | Hlong]; [contradiction |].
  destruct (Z.ltb_spec SAME_NOTE_COOLDOWN_MS (now - lastFiredTime st));
    [reflexivity | lia].
Qed.

Lemma fire_blocked (now : Z) (s : Note) (st : State) :
  stableNote st = Some s ->
  (now - lastFiredTime st < ANY_NOTE_COOLDOWN_MS)%Z \/
  (lastFiredNote st = Some (name s) /\
   (now - lastFiredTime st <= SAME_NOTE_COOLDOWN_MS)%Z) ->
  fire now st = (st, []).
Proof.
  intros Hs Hblock. unfold fire. rewrite Hs.
  destruct (STABLE_FRAMES <=? stableCount st)%Z; [| reflexivity].
  destruct (Z.ltb_spec (now - lastFiredTime st) ANY_NOTE_COOLDOWN_MS);
    [reflexivity |].
  destruct Hblock as [Hany | [Hlast Hwin]]; [lia |].
  apply sameNoteAs_true in Hlast. rewrite Hlast. simpl.
  destruct (Z.ltb_spec SAME_NOTE_COOLDOWN_MS (now - lastFiredTime st));
    [lia | reflexivity].
Qed.

(** The events of [fire] are at most one [onNote] call. *)
Lemma fire_events (now : Z) (st : State) :
  snd (fire now st) = [] \/
  exists s, stableNote st = Some s /\
            snd (fire now st) = [OnNote (name s) (octave s)].
Proof.
  unfold fire. destruct (stableNote st) as [s |]; [| now left].
  destruct (STABLE_FRAMES <=? stableCount st)%Z; [| now left].
  destruct (now - lastFiredTime st <? ANY_NOTE_COOLDOWN_MS)%Z; [now left |].
  destruct (negb (sameNoteAs s (lastFiredNote st)) ||
            (SAME_NOTE_COOLDOWN_MS <? now - lastFiredTime st)%Z);
    [right; now exists s | now left].
Qed.

Lemma gate_suppressed (note : option Note) (now : Z) (raf : positive) (st : State) :
  (now < suppressUntil st)%Z ->
  gate note now raf st =
  (set_rafId (Some raf) (set_stable None 0 (track note st)), []).
Proof.
  intros H. unfold gate.
  destruct (track_keeps note st) as (-> & _).
  destruct (Z.ltb_spec now (suppressUntil st)); [reflexivity | lia].
Qed.

Lemma gate_open (note : option Note) (now : Z) (raf : positive) (st : State) :
  (suppressUntil st <= now)%Z ->
  gate note now raf st =
  (set_rafId (Some raf) (fst (fire now (track note st))),
   snd (fire now (track note st))).
Proof.
  intros H. unfold gate.
  destruct (track_keeps note st) as (-> & _).
  destruct (Z.ltb_spec now (suppressUntil st)); [lia |].
  now destruct (fire now (track note st)).
Qed.

Lemma gate_only_onNote (note : option Note) (now : Z) (raf : positive) (st : State) :
  onNoteCalls (snd (gate note now raf st)) = snd (gate note now raf st).
Proof.
  destruct (Z.lt_ge_cases now (suppressUntil st)) as [H | H].
  - now rewrite gate_suppressed.
  - rewrite gate_open by exact H. simpl.
    destruct (fire_events now (track note st)) as [-> | (s & _ & ->)]; reflexivity.
Qed.

Lemma loop_gate (preset : Preset) (fr : Frame) (st : State) :
  fst (loop preset fr st) = fst (gate (fst (detect preset fr)) (frame_now fr) (frame_raf fr) st) /\
  onNoteCalls (snd (loop preset fr st)) =
  snd (gate (fst (detect preset fr)) (frame_now fr) (frame_raf fr) st).
Proof.
  unfold loop. destruct (detect preset fr) as [note freq]. simpl.
  pose proof (gate_only_onNote note (frame_now fr) (frame_raf fr) st) as Hg.
  destruct (gate note (frame_now fr) (frame_raf fr) st) as [st' fired].
  simpl in *. split; [reflexivity |].
  unfold onNoteCalls in *. rewrite filter_app, Hg.
  unfold heard. destruct note as [n |]; [| reflexivity].
  destruct (String.eqb (name n) ""); reflexivity.
Qed.

Lemma onNoteCalls_app (a b : list event) :
  onNoteCalls (a ++ b) = onNoteCalls a ++ onNoteCalls b.
Proof. apply filter_app. Qed.

Lemma run_runGate (preset : Preset) (frames : list Frame) (st : State) :
  fst (run preset frames st) = fst (runGate (map (gateInput preset) frames) st) /\
  onNoteCalls (snd (run preset frames st)) =
  snd (runGate (map (gateInput preset) frames) st).
Proof.
  revert st. induction frames as [| fr rest IH]; intros st.
  - split; reflexivity.
  - change (map (gateInput preset) (fr :: rest))
      with ((fst (detect preset fr), frame_now fr, frame_raf fr)
              :: map (gateInput preset) rest).
    cbn [run runGate].
    destruct (loop_gate preset fr st) as [Hst Hev].
    destruct (loop preset fr st) as [st1 evs1].
    destruct (gate (fst (detect preset fr)) (frame_now fr) (frame_raf fr) st)
      as [st1' evs1'].
    cbn [fst snd] in Hst, Hev. subst st1' evs1'.
    destruct (IH st1) as [IHst IHev].
    destruct (run preset rest st1) as [st2 evs2].
    destruct (runGate (map (gateInput preset) rest) st1) as [st2' evs2'].
    cbn [fst snd] in *. split; [exact IHst |].
    now rewrite onNoteCalls_app, IHev.
Qed.

(** One frame of a fresh candidate: it becomes the tracked note with a
    support count of one, and nothing fires. *)
Lemma gate_fresh (c : Note) (now : Z) (raf : positive) (st : State) :
  not_tracking c st ->
  (suppressUntil st <= now)%Z ->
  gate (Some c) now raf st = (set_rafId (Some raf) (set_stable (Some c) 1 st), []).
Proof.
  intros Hfresh Hsup. rewrite gate_open by exact Hsup.
  rewrite track_fresh by exact Hfresh.
  now rewrite fire_low_count by (simpl; unfold STABLE_FRAMES; lia).
Qed.

(** A further frame of the tracked letter below the threshold. *)
Lemma gate_counting (c s : Note) (now : Z) (raf : positive) (st : State) :
  stableNote st = Some s -> name c = name s ->
  (stableCount st + 1 < STABLE_FRAMES)%Z ->
  (suppressUntil st <= now)%Z ->
  gate (Some c) now raf st =
  (set_rafId (Some raf) (set_stable (Some s) (stableCount st + 1) st), []).
Proof.
  intros Hs Heq Hc Hsup. rewrite gate_open by exact Hsup.
  rewrite (track_same c st Hs Heq).
  now rewrite fire_low_count by (simpl; lia).
Qed.

(** The frame on which the tracked letter reaches the threshold, with both
    cooldowns satisfied. *)
Lemma gate_firing (c s : Note) (now : Z) (raf : positive) (st : State) :
  stableNote st = Some s -> name c = name s ->
  (STABLE_FRAMES <= stableCount st + 1)%Z ->
  (suppressUntil st <= now)%Z ->
  cooldowns_ok (name s) now st ->
  gate (Some c) now raf st =
  (set_rafId (Some raf)
     (set_stable None 0
        (set_lastFired (Some (name s)) now
           (set_stable (Some s) (stableCount st + 1) st))),
   [OnNote (name s) (octave s)]).
Proof.
  intros Hs Heq Hc Hsup Hcool. rewrite gate_open by exact Hsup.
  rewrite (track_same c st Hs Heq).
  now rewrite (@fire_eligible now s) by (try reflexivity; assumption).
Qed.

(** Three frames of one letter, from a gate that was not tracking it. *)
Lemma three_frames_fire (c1 c2 c3 : Note) (t1 t2 t3 : Z) (r1 r2 r3 : positive)
      (st : State) :
  not_tracking c1 st ->
  name c2 = name c1 -> name c3 = name c1 ->
  (suppressUntil st <= t1)%Z -> (suppressUntil st <= t2)%Z ->
  (suppressUntil st <= t3)%Z ->
  cooldowns_ok (name c1) t3 st ->
  exists st',
    runGate [(Some c1, t1, r1); (Some c2, t2, r2); (Some c3, t3, r3)] st =
    (st', [OnNote (name c1) (octave c1)]) /\
    stableNote st' = None /\ stableCount st' = 0%Z /\
    lastFiredNote st' = Some (name c1) /\ lastFiredTime st' = t3 /\
    suppressUntil st' = suppressUntil st.
Proof.
  intros Hfresh H2 H3 Hs1 Hs2 Hs3 Hcool. cbn [runGate].
  rewrite gate_fresh by assumption.
  rewrite (@gate_counting c2 c1) by (try reflexivity; assumption).
  rewrite (@gate_firing c3 c1) by (try reflexivity; assumption).
  eexists. split; [reflexivity |]. repeat split.
Qed.

Lemma eligibleb_spec (n : string) (now : Z) (st : State) :
  eligibleb n now st = true <-> cooldowns_ok n now st.
Proof.
  unfold eligibleb, cooldowns_ok.
  destruct (Z.ltb_spec (now - lastFiredTime st) ANY_NOTE_COOLDOWN_MS);
    destruct (Z.ltb_spec SAME_NOTE_COOLDOWN_MS (now - lastFiredTime st));
    destruct (lastFiredNote st) as [l |];
    try destruct (String.eqb_spec n l); simpl; split;
    try (intros [H1 [H2 | H2]]); try intros H1;
    try easy; try lia; try congruence;
    (split; [lia |]); try (right; lia); left; congruence.
Qed.

(** The firing decision on a tracked note, as one conditional. *)
Lemma fire_cases (now : Z) (s : Note) (st : State) :
  stableNote st = Some s ->
  fire now st =
  if (STABLE_FRAMES <=? stableCount st)%Z && eligibleb (name s) now st
  then (set_stable None 0 (set_lastFired (Some (name s)) now st),
        [OnNote (name s) (octave s)])
  else (st, []).
Proof.
  intros Hs. unfold fire, eligibleb, sameNoteAs. rewrite Hs.
  destruct (STABLE_FRAMES <=? stableCount st)%Z; [| reflexivity].
  destruct (now - lastFiredTime st <? ANY_NOTE_COOLDOWN_MS)%Z; reflexivity.
Qed.

(** A frame of the tracked letter, when the gate is open. *)
Lemma gate_tracked (c s : Note) (now : Z) (raf : positive) (st : State) :
  stableNote st = Some s -> name c = name s ->
  (suppressUntil st <= now)%Z ->
  gate (Some c) now raf st =
  if (STABLE_FRAMES <=? stableCount st + 1)%Z && eligibleb (name s) now st
  then (set_rafId (Some raf)
          (set_stable None 0
             (set_lastFired (Some (name s)) now
                (set_stable (Some s) (stableCount st + 1) st))),
        [OnNote (name s) (octave s)])
  else (set_rafId (Some raf) (set_stable (Some s) (stableCount st + 1) st), []).
Proof.
  intros Hs Heq Hsup. rewrite gate_open by exact Hsup.
  rewrite (track_same c st Hs Heq).
  rewrite (@fire_cases now s) by reflexivity.
  unfold eligibleb. cbn [stableCount lastFiredTime lastFiredNote set_stable].
  destruct ((STABLE_FRAMES <=? stableCount st + 1)%Z && _); reflexivity.
Qed.

(** Three frames of one candidate fire exactly once, whatever the gate
    was tracking before. *)
Lemma three_frames_once (c : Note) (t1 t2 t3 : Z) (r1 r2 r3 : positive)
      (st : State) :
  tracking_ok st ->
  (suppressUntil st <= t1)%Z -> (suppressUntil st <= t2)%Z ->
  (suppressUntil st <= t3)%Z ->
  cooldowns_ok (name c) t3 st ->
  exists st' o,
    runGate [(Some c, t1, r1); (Some c, t2, r2); (Some c, t3, r3)] st =
    (st', [OnNote (name c) o]).
Proof.
  intros Hok Hs1 Hs2 Hs3 Hcool.
  assert (Hcases : not_tracking c st \/
                   exists s, stableNote st = Some s /\ name c = name s).
  { unfold not_tracking. destruct (stableNote st) as [s |].
    - destruct (string_dec (name c) (name s)) as [Heq | Hne].
      + right. now exists s.
      + left. intros s' [= <-]. congruence.
    - left. intros s' [=]. }
  destruct Hcases as [Hfresh | (s & Hs & Heq)].
  - destruct (@three_frames_fire c c c t1 t2 t3 r1 r2 r3 st)
      as (st' & Hrun & _); try assumption; try reflexivity.
    now exists st', (octave c).
  - unfold tracking_ok in Hok. rewrite Hs in Hok. rewrite Heq in *.
    cbn [runGate].
    rewrite (@gate_tracked c s t1) by assumption.
    destruct ((STABLE_FRAMES <=? stableCount st + 1)%Z && eligibleb (name s) t1 st)
      eqn:Hfire1.
    + (* fires on the first frame *)
      rewrite gate_fresh by (try (intros s' [=]); assumption).
      rewrite (@gate_counting c c) by (try reflexivity; assumption).
      eexists. exists (octave s). reflexivity.
    + rewrite (@gate_tracked c s t2) by (try reflexivity; assumption).
      cbn [stableCount set_rafId set_stable].
      assert (Hreach : (STABLE_FRAMES <=? stableCount st + 1 + 1)%Z = true).
      { apply Z.leb_le. unfold STABLE_FRAMES. lia. }
      rewrite Hreach. cbn [andb].
      destruct (eligibleb (name s) t2 _) eqn:Hfire2.
      * (* fires on the second frame *)
        rewrite gate_fresh by (try (intros s' [=]); assumption).
        eexists. exists (octave s). reflexivity.
      * (* fires on the third frame *)
        rewrite (@gate_firing c s t3);
          try reflexivity; try assumption.
        -- eexists. exists (octave s). reflexivity.
        -- cbn [stableCount set_rafId set_stable]. unfold STABLE_FRAMES. lia.
Qed.

Ltac gate_cbn :=
  cbn [suppressUntil stableNote stableCount lastFiredTime lastFiredNote
       set_stable set_rafId set_lastFired Z.leb Z.compare Pos.compare
       Pos.compare_cont Z.add Pos.add app].

(** One or two frames of a candidate followed by another letter: nothing
    fires, and the support gathered for the first candidate is gone. *)
Lemma short_run_discarded (c d : Note) (t1 t2 t3 : Z) (r1 r2 r3 : positive)
      (st : State) :
  not_tracking c st ->
  name d <> name c ->
  (let (st', evs) := runGate [(Some c, t1, r1); (Some d, t2, r2)] st in
   evs = [] /\ (stableCount st' <= 1)%Z /\
   forall s, stableNote st' = Some s -> s = d) /\
  (let (st', evs) :=
     runGate [(Some c, t1, r1); (Some c, t2, r2); (Some d, t3, r3)] st in
   evs = [] /\ (stableCount st' <= 1)%Z /\
   forall s, stableNote st' = Some s -> s = d).
Proof.
  intros Hfresh Hdc.
  assert (Hdc' : String.eqb (name d) (name c) = false).
  { now apply String.eqb_neq. }
  cbn [runGate]. unfold gate.
  rewrite (track_fresh Hfresh).
  unfold fire, track, STABLE_FRAMES. gate_cbn.
  split.
  - destruct (t1 <? suppressUntil st)%Z; gate_cbn;
      rewrite ?Hdc'; gate_cbn;
      destruct (t2 <? suppressUntil st)%Z; gate_cbn;
      (split; [reflexivity |]); (split; [lia |]); intros s [=]; congruence.
  - destruct (t1 <? suppressUntil st)%Z; gate_cbn;
      rewrite ?String.eqb_refl; gate_cbn;
      destruct (t2 <? suppressUntil st)%Z; gate_cbn;
      rewrite ?Hdc'; gate_cbn;
      destruct (t3 <? suppressUntil st)%Z; gate_cbn;
      (split; [reflexivity |]); (split; [lia |]); intros s [=]; congruence.
Qed.

Lemma runGate_app (l1 l2 : list (option Note * Z * positive)) (st : State) :
  runGate (l1 ++ l2) st =
  (fst (runGate l2 (fst (runGate l1 st))),
   snd (runGate l1 st) ++ snd (runGate l2 (fst (runGate l1 st)))).
Proof.
  revert st. induction l1 as [| [[note now] raf] l1 IH]; intros st.
  - cbn [app runGate fst snd]. now destruct (runGate l2 st).
  - cbn [app runGate]. destruct (gate note now raf st) as [st1 evs1].
    rewrite IH. destruct (runGate l1 st1) as [st2 evs2]. cbn [fst snd].
    now rewrite app_assoc.
Qed.

(** While the same-note cooldown of letter [n] runs, frames carrying that
    letter (in whatever octave) fire nothing; they only add support to the
    note that was tracked first. *)
Lemma blocked_run (n : string) (T : Z)
      (inputs : list (option Note * Z * positive)) :
  forall st : State,
    lastFiredNote st = Some n -> lastFiredTime st = T ->
    (forall s, stableNote st = Some s -> name s = n) ->
    tracking_ok st ->
    Forall (within_cooldown n T (suppressUntil st)) inputs ->
    exists st',
      runGate inputs st = (st', []) /\
      lastFiredNote st' = Some n /\ lastFiredTime st' = T /\
      suppressUntil st' = suppressUntil st /\
      stableCount st' = (stableCount st + Z.of_nat (List.length inputs))%Z /\
      stableNote st' =
      match stableNote st with
      | Some s => Some s
      | None => match inputs with
                | [] => None
                | (note, _, _) :: _ => note
                end
      end.
Proof.
  induction inputs as [| [[note now] raf] rest IH]; intros st Hn HT Hname Hok Hall.
  - exists st. cbn [runGate List.length Z.of_nat].
    repeat split; try assumption; try lia.
    now destruct (stableNote st).
  - inversion Hall as [| x l Hhd Htl]; subst x l.
    destruct Hhd as [(c & -> & Hc) [Hsup Hwin]].
    cbn [runGate]. rewrite gate_open by exact Hsup.
    assert (Htrack : exists s,
               track (Some c) st = set_stable (Some s) (stableCount st + 1) st /\
               name s = n /\
               Some s = match stableNote st with
                        | Some s0 => Some s0
                        | None => Some c
                        end).
    { unfold tracking_ok in Hok.
      destruct (stableNote st) as [s |] eqn:Hs.
      - exists s.
        rewrite (@track_same c s st Hs) by (rewrite Hc; symmetry; now apply Hname).
        repeat split; auto.
      - exists c. rewrite track_fresh by (intros s; rewrite Hs; easy).
        rewrite Hok. repeat split; auto. }
    destruct Htrack as (s & Htr & Hsn & Hwho).
    rewrite Htr, <- Hwho.
    assert (Hblock : fire now (set_stable (Some s) (stableCount st + 1) st) =
                     (set_stable (Some s) (stableCount st + 1) st, [])).
    { apply (@fire_blocked now s); [reflexivity |].
      right. cbn [lastFiredNote lastFiredTime set_stable].
      rewrite Hn, HT, Hsn. split; [reflexivity | lia]. }
    rewrite Hblock. cbn [fst snd].
    destruct (IH (set_rafId (Some raf)
                    (set_stable (Some s) (stableCount st + 1) st)))
      as (st' & Hrun & H1 & H2 & H3 & H4 & H5); try assumption.
    + intros s0 [= <-]. exact Hsn.
    + unfold tracking_ok. cbn [stableNote stableCount set_rafId set_stable].
      unfold tracking_ok in Hok. destruct (stableNote st); lia.
    + rewrite Hrun. exists st'. cbn [app].
      cbn [stableNote stableCount suppressUntil set_rafId set_stable] in H3, H4, H5.
      split; [reflexivity |]. split; [exact H1 |]. split; [exact H2 |].
      split; [exact H3 |]. split; [| exact H5].
      rewrite H4. cbn [List.length]. lia.
Qed.

(** The tracking variables stay consistent. *)
Lemma tracking_ok_init : tracking_ok init.
Proof. reflexivity. Qed.

Lemma tracking_ok_gate (note : option Note) (now : Z) (raf : positive) (st : State) :
  tracking_ok st -> tracking_ok (fst (gate note now raf st)).
Proof.
  intros Hok. apply (tracking_ok_track note) in Hok.
  destruct (Z.lt_ge_cases now (suppressUntil st)) as [Hsup | Hsup].
  - now rewrite gate_suppressed.
  - rewrite gate_open by exact Hsup. cbn [fst].
    unfold fire. unfold tracking_ok in *.
    destruct (stableNote (track note st)) as [s |] eqn:Hs.
    + destruct (STABLE_FRAMES <=? stableCount (track note st))%Z;
        [| cbn; now rewrite Hs].
      destruct (_ <? ANY_NOTE_COOLDOWN_MS)%Z; [cbn; now rewrite Hs |].
      destruct (negb _ || _); cbn; [reflexivity | now rewrite Hs].
    + cbn. now rewrite Hs.
Qed.

Lemma tracking_ok_stop (st : State) : tracking_ok (fst (stopMicListening st)).
Proof. reflexivity. Qed.


(** *** Claim C1 *)

(** C1, as amended.  The gate has a stability threshold of three frames
    and compares candidates by note letter.  Three consecutive frames
    carrying the same candidate, on an open (not suppressed) gate whose
    cooldowns allow that letter at the third frame, cause exactly one
    [onNote] call; when the gate was not already tracking the letter the
    call happens on the third frame, carries the candidate's octave, and
    leaves the tracking Idle.  And a candidate present for one or two
    frames before a candidate of another letter appears causes no [onNote]
    call: its support is discarded. *)
Theorem stability_threshold_three :
  (forall (st : State) (c : Note) (t1 t2 t3 : Z) (r1 r2 r3 : positive),
      tracking_ok st ->
      (suppressUntil st <= t1)%Z -> (suppressUntil st <= t2)%Z ->
      (suppressUntil st <= t3)%Z ->
      cooldowns_ok (name c) t3 st ->
      (exists st' o,
          runGate [(Some c, t1, r1); (Some c, t2, r2); (Some c, t3, r3)] st =
          (st', [OnNote (name c) o])) /\
      (not_tracking c st ->
       exists st',
         runGate [(Some c, t1, r1); (Some c, t2, r2); (Some c, t3, r3)] st =
         (st', [OnNote (name c) (octave c)]) /\
         stableNote st' = None /\ stableCount st' = 0%Z)) /\
  (forall (st : State) (c d : Note) (t1 t2 t3 : Z) (r1 r2 r3 : positive),
      not_tracking c st ->
      name d <> name c ->
      (let (st', evs) := runGate [(Some c, t1, r1); (Some d, t2, r2)] st in
       evs = [] /\ (stableCount st' <= 1)%Z /\
       forall s, stableNote st' = Some s -> s = d) /\
      (let (st', evs) :=
         runGate [(Some c, t1, r1); (Some c, t2, r2); (Some d, t3, r3)] st in
       evs = [] /\ (stableCount st' <= 1)%Z /\
       forall s, stableNote st' = Some s -> s = d)).
Proof.
  split.
  - intros st c t1 t2 t3 r1 r2 r3 Hok Hs1 Hs2 Hs3 Hcool. split.
    + now apply three_frames_once.
    + intros Hfresh.
      destruct (@three_frames_fire c c c t1 t2 t3 r1 r2 r3 st)
        as (st' & Hrun & Hnote & Hcount & _); try assumption; try reflexivity.
      now exists st'.
  - intros st c d t1 t2 t3 r1 r2 r3 Hfresh Hdc.
    now apply short_run_discarded.
Qed.

Lemma stability_threshold_three_witness :
  (exists st',
      runGate [(Some (mkNote "A" 4), 1000%Z, 1%positive);
               (Some (mkNote "A" 4), 1016%Z, 2%positive);
               (Some (mkNote "A" 4), 1032%Z, 3%positive)] init =
      (st', [OnNote "A" 4]) /\
      stableNote st' = None /\ stableCount st' = 0%Z) /\
  snd (runGate [(Some (mkNote "A" 4), 1000%Z, 1%positive);
                (Some (mkNote "A" 4), 1016%Z, 2%positive);
                (Some (mkNote "B" 4), 1032%Z, 3%positive)] init) = [].
Proof.
  destruct stability_threshold_three as [Hfire Hshort].
  split.
  - apply (Hfire init (mkNote "A" 4) 1000%Z 1016%Z 1032%Z 1%positive 2%positive 3%positive);
      try reflexivity; try (unfold init; simpl; lia).
    + split; [unfold init, ANY_NOTE_COOLDOWN_MS; simpl; lia |].
      left. discriminate.
    + intros s [=].
  - destruct (Hshort init (mkNote "A" 4) (mkNote "B" 4)
                      1000%Z 1016%Z 1032%Z 1%positive 2%positive 3%positive)
      as [_ H2].
    + intros s [=].
    + discriminate.
    + destruct (runGate _ init) as [st' evs]. apply H2.
Defined.

(** C1 as stated fails when the "differing" candidate differs in octave
    only: C4, C4, C5 fires C4 on the third frame. *)
Lemma stability_octave_counterexample :
  mkNote "C" 5 <> mkNote "C" 4 /\
  snd (runGate [(Some (mkNote "C" 4), 1000%Z, 1%positive);
                (Some (mkNote "C" 4), 1016%Z, 2%positive);
                (Some (mkNote "C" 5), 1032%Z, 3%positive)] init) =
  [OnNote "C" 4].
Proof. split; [discriminate | reflexivity]. Qed.

(** *** Claim C6 *)

(** C6.  [suppressMicListening] sets the deadline [suppressUntil] to the
    current time plus the duration; and every frame processed while the
    clock is earlier than the deadline clears the tracking state (no
    tracked note, support count 0), emits no [onNote] call, and leaves the
    deadline as it is. *)
Theorem loop_suppressed (preset : Preset) (fr : Frame) (st : State) (t0 d : Z) :
  suppressUntil (suppressMicListening t0 d st) = (t0 + d)%Z /\
  ((frame_now fr < suppressUntil st)%Z ->
   stableNote (fst (loop preset fr st)) = None /\
   stableCount (fst (loop preset fr st)) = 0%Z /\
   onNoteCalls (snd (loop preset fr st)) = [] /\
   suppressUntil (fst (loop preset fr st)) = suppressUntil st).
Proof.
  split; [reflexivity |]. intros Hsup.
  destruct (loop_gate preset fr st) as [-> ->].
  rewrite gate_suppressed by exact Hsup. cbn [fst snd].
  cbn [stableNote stableCount suppressUntil set_rafId set_stable].
  destruct (track_keeps (fst (detect preset fr)) st) as (-> & _).
  repeat split.
Qed.

Lemma loop_suppressed_witness :
  stableNote
    (fst (loop normal (toneFrame 1200 7)
               (suppressMicListening 1000 500
                  (set_stable (Some (mkNote "A" 4)) 2 init)))) = None /\
  stableCount
    (fst (loop normal (toneFrame 1200 7)
               (suppressMicListening 1000 500
                  (set_stable (Some (mkNote "A" 4)) 2 init)))) = 0%Z /\
  onNoteCalls
    (snd (loop normal (toneFrame 1200 7)
               (suppressMicListening 1000 500
                  (set_stable (Some (mkNote "A" 4)) 2 init)))) = [] /\
  suppressUntil
    (fst (loop normal (toneFrame 1200 7)
               (suppressMicListening 1000 500
                  (set_stable (Some (mkNote "A" 4)) 2 init)))) = 1500%Z.
Proof.
  apply (proj2 (@loop_suppressed normal (toneFrame 1200 7)
                  (suppressMicListening 1000 500
                     (set_stable (Some (mkNote "A" 4)) 2 init)) 0 0)).
  reflexivity.
Defined.

(** *** Claim C10 *)

(** C10.  Tracking and the same-note cooldown compare note letters only.
    A candidate with the letter of the tracked note adds one to the
    support count and leaves the tracked note (with its octave) in place,
    whatever its own octave; three frames of one letter on an open,
    eligible gate that was not tracking it fire with the octave of the
    first of them; and while no more than 1500 ms have passed since a
    letter fired, a candidate of that letter fires nothing, in any
    octave. *)
Theorem tracking_by_letter :
  (forall (st : State) (s c : Note),
      stableNote st = Some s -> name c = name s ->
      stableNote (track (Some c) st) = Some s /\
      stableCount (track (Some c) st) = (stableCount st + 1)%Z) /\
  (forall (st : State) (c1 c2 c3 : Note) (t1 t2 t3 : Z) (r1 r2 r3 : positive),
      not_tracking c1 st ->
      name c2 = name c1 -> name c3 = name c1 ->
      (suppressUntil st <= t1)%Z -> (suppressUntil st <= t2)%Z ->
      (suppressUntil st <= t3)%Z ->
      cooldowns_ok (name c1) t3 st ->
      snd (runGate [(Some c1, t1, r1); (Some c2, t2, r2); (Some c3, t3, r3)] st) =
      [OnNote (name c1) (octave c1)]) /\
  (forall (st : State) (c : Note) (now : Z) (raf : positive),
      lastFiredNote st = Some (name c) ->
      (now - lastFiredTime st <= SAME_NOTE_COOLDOWN_MS)%Z ->
      snd (gate (Some c) now raf st) = []).
Proof.
  split; [| split].
  - intros st s c Hs Heq. now rewrite (track_same c st Hs Heq).
  - intros st c1 c2 c3 t1 t2 t3 r1 r2 r3 Hfresh H2 H3 Hs1 Hs2 Hs3 Hcool.
    destruct (@three_frames_fire c1 c2 c3 t1 t2 t3 r1 r2 r3 st)
      as (st' & -> & _); auto.
  - intros st c now raf Hlast Hwin.
    destruct (Z.lt_ge_cases now (suppressUntil st)) as [Hsup | Hsup].
    + now rewrite gate_suppressed.
    + rewrite gate_open by exact Hsup. cbn [snd].
      destruct (track_keeps (Some c) st) as (_ & Hl & Ht).
      assert (Htr : exists s, stableNote (track (Some c) st) = Some s /\
                              name s = name c).
      { unfold track. destruct (stableNote st) as [s |] eqn:Hs.
        - destruct (String.eqb_spec (name c) (name s)) as [Heq | Hne].
          + exists s. split; [reflexivity | now symmetry].
          + now exists c.
        - now exists c. }
      destruct Htr as (s & Hs & Hsn).
      rewrite (@fire_blocked now s); [reflexivity | exact Hs |].
      right. rewrite Hl, Ht, Hsn. split; [exact Hlast | exact Hwin].
Qed.

Lemma tracking_by_letter_witness :
  snd (runGate [(Some (mkNote "C" 4), 1000%Z, 1%positive);
                (Some (mkNote "C" 5), 1016%Z, 2%positive);
                (Some (mkNote "C" 3), 1032%Z, 3%positive)] init) =
  [OnNote "C" 4] /\
  snd (gate (Some (mkNote "C" 6)) 2000%Z 4%positive
            (set_lastFired (Some "C"%string) 1032 init)) = [].
Proof.
  destruct tracking_by_letter as (_ & Hfire & Hblock).
  split.
  - apply Hfire; try reflexivity; try (unfold init; simpl; lia).
    + intros s [=].
    + split; [unfold init, ANY_NOTE_COOLDOWN_MS; simpl; lia |].
      left. discriminate.
  - apply Hblock; [reflexivity |].
    unfold SAME_NOTE_COOLDOWN_MS. simpl. lia.
Defined.

End GateFacts.

(** ** The full pipeline on a sustained 440 Hz tone *)

Section SustainedTone.

Import NoteMapper MicUtils.

Lemma freqToNote_440 (tol : R) :
  0 <= tol -> freqToNote 440 tol = Some (mkNote "A" 4).
Proof.
  intros Htol. rewrite freqToNote_in_range by lra. rewrite midiFloatOf_440.
  assert (Hd : semitoneDist 69 69 = 0).
  { unfold semitoneDist. replace (69 - 69) with 0 by lra. apply Rabs_R0. }
  destruct (@snapMidi_near_natural 69 tol 69) as [H | (Hm & _)];
    try reflexivity; try (rewrite Hd; lra).
  - exact H.
  - lra.
Qed.

Lemma detect_sustained440 (fr : Frame) :
  sustained440 normal fr -> detect normal fr = (Some (mkNote "A" 4), 440).
Proof.
  intros [Hrms Hpitch]. unfold detect. rewrite Hrms, Hpitch.
  assert (H : Rltb 0 440 = true) by (apply Rltb_true; lra).
  rewrite H. rewrite freqToNote_440; [reflexivity |].
  unfold normal. cbn [snapTolerance]. lra.
Qed.

Lemma gateInput_sustained440 (frames : list Frame) :
  Forall (sustained440 normal) frames ->
  map (gateInput normal) frames =
  map (fun fr => (Some (mkNote "A" 4), frame_now fr, frame_raf fr)) frames.
Proof.
  induction 1 as [| fr rest Hfr _ IH]; [reflexivity |].
  cbn [map]. rewrite IH. unfold gateInput at 1.
  now rewrite detect_sustained440.
Qed.

(** The tone frames are loud enough for the [normal] preset. *)
Lemma sustained440_tone (now : Z) (raf : positive) :
  sustained440 normal (toneFrame now raf).
Proof.
  split; [| reflexivity]. unfold toneFrame. cbn [frame_buf].
  change (sineBuffer 128 4096) with (sineBuffer (4 * 32) (32 * (4 * 32))).
  rewrite getRms_sine by lia.
  apply Rleb_true. unfold normal. cbn [rmsThreshold].
  pose proof inv_sqrt2_bound. lra.
Qed.



Lemma fresh_gate_facts (st : State) :
  fresh_gate st ->
  tracking_ok st /\ (forall c, not_tracking c st) /\
  forall n now, (100 <= now)%Z -> cooldowns_ok n now st.
Proof.
  intros (Hn & Ht & Hs & Hsn & Hsc). split; [| split].
  - unfold tracking_ok. now rewrite Hsn.
  - intros c s. now rewrite Hsn.
  - intros n now Hnow. unfold cooldowns_ok, ANY_NOTE_COOLDOWN_MS.
    rewrite Ht, Hn. split; [lia | left; discriminate].
Qed.

(** The gate on the sustained tone: one call on the third frame, silence
    for the 1500 ms that follow, and a second call on the first frame after
    that. *)
Lemma sustained_gate (st : State) (c : Note) (t1 t2 t3 : Z) (r1 r2 r3 : positive)
      (rest : list (Z * positive)) :
  fresh_gate st ->
  (0 <= t1)%Z -> (0 <= t2)%Z -> (100 <= t3)%Z ->
  Forall (fun tr => t3 <= fst tr <= t3 + SAME_NOTE_COOLDOWN_MS)%Z rest ->
  let first := [(Some c, t1, r1); (Some c, t2, r2); (Some c, t3, r3)] in
  let later := map (fun tr => (Some c, fst tr, snd tr)) rest in
  (snd (runGate first st) = [OnNote (name c) (octave c)] /\
   lastFiredTime (fst (runGate first st)) = t3) /\
  snd (runGate (first ++ later) st) = [OnNote (name c) (octave c)] /\
  forall t r,
    (t3 + SAME_NOTE_COOLDOWN_MS < t)%Z -> (2 <= List.length rest)%nat ->
    snd (runGate ((first ++ later) ++ [(Some c, t, r)]) st) =
    [OnNote (name c) (octave c); OnNote (name c) (octave c)].
Proof.
  intros Hfresh Ht1 Ht2 Ht3 Hrest first later.
  destruct (fresh_gate_facts Hfresh) as (Hok & Hnot & Hcool).
  destruct Hfresh as (Hn & Ht & Hs & Hsn & Hsc).
  destruct (@three_frames_fire c c c t1 t2 t3 r1 r2 r3 st)
    as (st3 & Hrun3 & Hnote3 & Hcount3 & Hlast3 & Htime3 & Hsup3);
    try reflexivity; try (rewrite Hs; lia); auto.
  fold first in Hrun3.
  assert (Hlater : Forall (within_cooldown (name c) t3 (suppressUntil st3)) later).
  { unfold later. rewrite Hsup3, Hs. clear -Hrest Ht3.
    induction Hrest as [| tr rest' Htr _ IH]; [constructor |].
    cbn [map]. constructor; [| exact IH].
    split; [now exists c | lia]. }
  destruct (@blocked_run (name c) t3 later st3)
    as (st4 & Hrun4 & Hlast4 & Htime4 & Hsup4 & Hcount4 & Hnote4); auto.
  { intros s. now rewrite Hnote3. }
  { unfold tracking_ok. now rewrite Hnote3. }
  assert (Hboth : runGate (first ++ later) st = (st4, [OnNote (name c) (octave c)])).
  { rewrite runGate_app, Hrun3. cbn [fst snd]. now rewrite Hrun4. }
  split; [| split].
  - now rewrite Hrun3.
  - now rewrite Hboth.
  - intros t r Hlate Hlen.
    rewrite runGate_app, Hboth. cbn [fst snd runGate].
    assert (Hnote : stableNote st4 = Some c).
    { rewrite Hnote4, Hnote3. unfold later.
      destruct rest as [| tr rest']; [cbn [List.length] in Hlen; lia | reflexivity]. }
    rewrite (@gate_firing c c t r st4); try reflexivity; try assumption.
    + rewrite Hcount4, Hcount3. unfold later. rewrite length_map.
      unfold STABLE_FRAMES. lia.
    + rewrite Hsup4, Hsup3, Hs. unfold SAME_NOTE_COOLDOWN_MS in Hlate. lia.
    + unfold cooldowns_ok. rewrite Htime4.
      unfold ANY_NOTE_COOLDOWN_MS, SAME_NOTE_COOLDOWN_MS in *.
      split; [lia | right; lia].
Qed.

(** The same, for the loop fed with frames of the tone. *)
Lemma sustained_run (st : State) (f1 f2 f3 : Frame) (rest : list Frame) :
  fresh_gate st ->
  Forall (sustained440 normal) (f1 :: f2 :: f3 :: rest) ->
  (0 <= frame_now f1)%Z -> (0 <= frame_now f2)%Z -> (100 <= frame_now f3)%Z ->
  Forall (fun fr => frame_now f3 <= frame_now fr
                    <= frame_now f3 + SAME_NOTE_COOLDOWN_MS)%Z rest ->
  (onNoteCalls (snd (run normal [f1; f2; f3] st)) = [OnNote "A" 4] /\
   lastFiredTime (fst (run normal [f1; f2; f3] st)) = frame_now f3) /\
  onNoteCalls (snd (run normal (f1 :: f2 :: f3 :: rest) st)) = [OnNote "A" 4] /\
  forall fr,
    sustained440 normal fr ->
    (frame_now f3 + SAME_NOTE_COOLDOWN_MS < frame_now fr)%Z ->
    (2 <= List.length rest)%nat ->
    onNoteCalls (snd (run normal ((f1 :: f2 :: f3 :: rest) ++ [fr]) st)) =
    [OnNote "A" 4; OnNote "A" 4].
Proof.
  intros Hfresh Hall Ht1 Ht2 Ht3 Hrest.
  assert (Hfirst : Forall (sustained440 normal) [f1; f2; f3]).
  { inversion Hall as [| ? ? H1 Hall1]; subst.
    inversion Hall1 as [| ? ? H2 Hall2]; subst.
    inversion Hall2 as [| ? ? H3 Hall3]; subst.
    repeat (constructor; try assumption). }
  set (times := map (fun fr => (frame_now fr, frame_raf fr)) rest).
  assert (Htimes : Forall (fun tr => frame_now f3 <= fst tr
                                     <= frame_now f3 + SAME_NOTE_COOLDOWN_MS)%Z times).
  { unfold times. clear -Hrest.
    induction Hrest as [| fr rest' Hfr _ IH]; constructor; auto. }
  destruct (@sustained_gate st (mkNote "A" 4) (frame_now f1) (frame_now f2)
              (frame_now f3) (frame_raf f1) (frame_raf f2) (frame_raf f3)
              times Hfresh Ht1 Ht2 Ht3 Htimes) as ((Hone & Hwhen) & Hquiet & Hagain).
  unfold times in Hquiet, Hagain. rewrite map_map in Hquiet, Hagain.
  cbn [fst snd name octave] in Hquiet, Hagain, Hone.
  split; [split |]; [| | split].
  - destruct (run_runGate normal [f1; f2; f3] st) as [_ ->].
    now rewrite (gateInput_sustained440 Hfirst).
  - destruct (run_runGate normal [f1; f2; f3] st) as [-> _].
    now rewrite (gateInput_sustained440 Hfirst).
  - destruct (run_runGate normal (f1 :: f2 :: f3 :: rest) st) as [_ ->].
    now rewrite (gateInput_sustained440 Hall).
  - intros fr Hfr Hlate Hlen.
    destruct (run_runGate normal ((f1 :: f2 :: f3 :: rest) ++ [fr]) st) as [_ ->].
    rewrite gateInput_sustained440
      by (apply Forall_app; split; [exact Hall | now constructor]).
    rewrite map_app. cbn [map].
    apply (Hagain (frame_now fr) (frame_raf fr) Hlate).
    now rewrite length_map.
Qed.

(** *** Claim C2 *)


Lemma init_fresh : fresh_gate init.
Proof. repeat split. Qed.



End SustainedTone.

(** ** Session lifecycle *)

Section Lifecycle.

Import MicUtils.

(** *** Claim C8 *)

(** C8.  [stopMicListening] with no session active (no pending frame
    callback, no source, no context, no stream) calls nothing, so nothing
    can raise, and on the initial state it changes nothing; after any call
    every module variable holds its initial, released value; and a second
    call in a row again changes nothing and calls nothing. *)
Theorem stopMicListening_idempotent :
  (forall st,
      rafId st = None -> source st = None ->
      audioCtx st = None -> stream st = None ->
      snd (stopMicListening st) = []) /\
  stopMicListening init = (init, []) /\
  (forall st, fst (stopMicListening st) = init) /\
  (forall st, stopMicListening (fst (stopMicListening st)) = (init, [])).
Proof.
  split; [| repeat split].
  intros st Hraf Hsrc Hctx Hstr. unfold stopMicListening.
  now rewrite Hraf, Hsrc, Hctx, Hstr.
Qed.

Lemma stopMicListening_idempotent_witness :
  snd (stopMicListening (suppressMicListening 1000 500 init)) = [] /\
  fst (stopMicListening (suppressMicListening 1000 500 init)) = init.
Proof.
  destruct stopMicListening_idempotent as (Hnone & _ & Hreset & _).
  split; [apply Hnone; reflexivity | apply Hreset].
Defined.

(** *** Claim C9 *)

Lemma describe_cases (e : JsError) :
  (err_name e = "NotAllowedError"%string -> describe e = denied) /\
  (err_name e <> "NotAllowedError"%string ->
   describe e = ("Microphone error: " ++ err_message e)%string /\
   describe e <> denied).
Proof.
  unfold describe. split.
  - intros ->. reflexivity.
  - intros Hne. apply String.eqb_neq in Hne. rewrite Hne.
    split; [reflexivity |]. unfold denied. simpl. discriminate.
Qed.

Lemma startMicListening_result (br : Browser) (options : Options) (st : State) :
  exists st' evs,
    startMicListening br options st =
    (st', evs,
     Normal match firstFailure br with
            | None => None
            | Some e => Some (describe e)
            end).
Proof.
  unfold startMicListening, firstFailure, tryCatch, bind, call, modify, ret,
    liftLoop.
  destruct (getUserMedia br); [| now eexists; eexists].
  destruct (newAudioContext br); [| now eexists; eexists].
  destruct (createAnalyser br); [| now eexists; eexists].
  destruct (createMediaStreamSource br); [| now eexists; eexists].
  destruct (connect br); [| now eexists; eexists].
  destruct (newYIN br); [| now eexists; eexists].
  destruct (loop _ _ _). now eexists; eexists.
Qed.

(** C9.  [startMicListening] always completes normally, never by
    throwing.  It answers [null] when every browser request succeeds.
    When a browser request throws it answers a message describing the
    error: when acquiring the stream fails with a [NotAllowedError] it
    answers the denial message; when it fails otherwise it answers
    ["Microphone error: "] followed by the error's message, which is never
    the denial message. *)
Theorem startMicListening_never_throws
        (br : Browser) (options : Options) (st : State) :
  exists st' evs r,
    startMicListening br options st = (st', evs, Normal r) /\
    (firstFailure br = None -> r = None) /\
    (forall e, firstFailure br = Some e -> r = Some (describe e)) /\
    (forall e, getUserMedia br = Throw e ->
               err_name e = "NotAllowedError"%string -> r = Some denied) /\
    (forall e, getUserMedia br = Throw e ->
               err_name e <> "NotAllowedError"%string ->
               r = Some ("Microphone error: " ++ err_message e)%string /\
               r <> Some denied).
Proof.
  destruct (startMicListening_result br options st) as (st' & evs & Hrun).
  exists st', evs. eexists. split; [exact Hrun |].
  split; [| split; [| split]].
  - now intros ->.
  - now intros e ->.
  - intros e He Hname. unfold firstFailure. rewrite He.
    now rewrite (proj1 (describe_cases e) Hname).
  - intros e He Hname. unfold firstFailure. rewrite He.
    destruct (proj2 (describe_cases e) Hname) as [Hd Hne].
    rewrite Hd in *. split; [reflexivity | congruence].
Qed.

Lemma startMicListening_never_throws_witness :
  exists st' evs,
    startMicListening
      (mkBrowser (Throw (mkJsError "NotFoundError" "Requested device not found"))
                 (Normal 2%nat) (Normal 3%nat) (Normal 4%nat)
                 (Normal tt) (Normal tt) (toneFrame 1000 1))
      (mkOptions None) init =
    (st', evs, Normal (Some "Microphone error: Requested device not found"%string)).
Proof.
  destruct (@startMicListening_never_throws
              (mkBrowser (Throw (mkJsError "NotFoundError" "Requested device not found"))
                         (Normal 2%nat) (Normal 3%nat) (Normal 4%nat)
                         (Normal tt) (Normal tt) (toneFrame 1000 1))
              (mkOptions None) init)
    as (st' & evs & r & Hrun & _ & _ & _ & Hother).
  destruct (Hother (mkJsError "NotFoundError" "Requested device not found") eq_refl)
    as [Hr _]; [discriminate |].
  exists st', evs. rewrite Hrun, Hr. reflexivity.
Defined.

End Lifecycle.

(** ** The MPM revision: silence-gap tracking *)

Section SilenceGap.

Import MicUtilsMPM.

Ltac mpm_cbn :=
  cbn [suppressUntil stableNote stableCount lastFiredTime lastFiredNote
       silenceFrames set_stable set_rafId set_lastFired set_lastFiredNote
       set_silenceFrames fst snd app].

Lemma silenceGap_quiet (st : State) :
  silenceFrames (silenceGap true st) = (silenceFrames st + 1)%Z /\
  ((SILENCE_GAP_FRAMES <= silenceFrames st + 1)%Z ->
   lastFiredNote (silenceGap true st) = None) /\
  ((silenceFrames st + 1 < SILENCE_GAP_FRAMES)%Z ->
   lastFiredNote (silenceGap true st) = lastFiredNote st) /\
  lastFiredTime (silenceGap true st) = lastFiredTime st /\
  suppressUntil (silenceGap true st) = suppressUntil st /\
  stableNote (silenceGap true st) = stableNote st /\
  stableCount (silenceGap true st) = stableCount st.
Proof.
  unfold silenceGap. mpm_cbn.
  destruct (Z.leb_spec SILENCE_GAP_FRAMES (silenceFrames st + 1));
    mpm_cbn; repeat split; auto; intros; lia.
Qed.


Lemma track_keeps_mpm (note : option Note) (st : State) :
  suppressUntil (track note st) = suppressUntil st /\
  lastFiredNote (track note st) = lastFiredNote st /\
  lastFiredTime (track note st) = lastFiredTime st /\
  silenceFrames (track note st) = silenceFrames st.
Proof.
  unfold track. destruct note as [n |]; [| easy].
  destruct (stableNote st) as [s |]; [| easy].
  destruct (String.eqb (name n) (name s)); easy.
Qed.













(** *** Claim C5 *)




End SilenceGap.

(** * Further properties of the code *)

(** ** More on [freqToNote] *)

Section NoteMapperMore.

Import NoteMapper.

Ltac abs_cases :=
  unfold semitoneDist, Rabs in *;
  repeat match goal with
         | |- context [Rcase_abs ?x] => destruct (Rcase_abs x)
         | H : context [Rcase_abs ?x] |- _ => destruct (Rcase_abs x)
         end.

Ltac mod12_cases r H :=
  let Hb := fresh "Hb" in
  pose proof (Z.mod_pos_bound r 12 ltac:(lia)) as Hb;
  assert (H : In (r mod 12)%Z [0; 1; 2; 3; 4; 5; 6; 7; 8; 9; 10; 11]%Z)
    by (simpl; lia);
  simpl in H.

Lemma mod12_succ (k : Z) : ((k + 1) mod 12 = (k mod 12 + 1) mod 12)%Z.
Proof. now rewrite Zplus_mod_idemp_l. Qed.

Lemma mod12_pred (k : Z) : ((k - 1) mod 12 = (k mod 12 + 11) mod 12)%Z.
Proof.
  rewrite Zplus_mod_idemp_l.
  replace (k + 11)%Z with (k - 1 + 1 * 12)%Z by lia.
  now rewrite Z.mod_add by lia.
Qed.





(** The neighbours of a sharp are naturals. *)
Lemma sharp_neighbours (c : Z) :
  isSharp c = true -> isSharp (c + 1) = false /\ isSharp (c - 1) = false.
Proof.
  rewrite !isSharp_class, mod12_succ, mod12_pred.
  mod12_cases c H.
  repeat (destruct H as [<- | H]; [now cbn |]). contradiction.
Qed.

(** A MIDI number without a sharp carries one of the seven letters. *)
Lemma natural_letter (k : Z) :
  isSharp k = false -> In (noteName k) naturalNames.
Proof.
  rewrite isSharp_class. unfold noteName. rewrite pitchClass_mod.
  mod12_cases k H.
  repeat (destruct H as [<- | H];
          [cbn; intros Hn; try discriminate Hn; tauto |]).
  contradiction.
Qed.

(** The search window always holds a natural within a semitone and a half. *)
Lemma window_has_natural (m : R) :
  exists j, (Math_round m - 2 <= j <= Math_round m + 2)%Z /\
            isSharp j = false /\ semitoneDist m j <= 3 / 2.
Proof.
  pose proof (Math_round_bounds m) as [Hlo Hhi].
  destruct (isSharp (Math_round m)) eqn:Hc.
  - exists (Math_round m + 1)%Z. split; [lia |]. split.
    + now apply sharp_neighbours.
    + unfold semitoneDist. rewrite plus_IZR. abs_cases; lra.
  - exists (Math_round m). split; [lia |]. split; [exact Hc |].
    abs_cases; lra.
Qed.

(** MIDI numbers outside the window are at least two and a half semitones
    away. *)
Lemma outside_window_far (m : R) (j : Z) :
  ~ (Math_round m - 2 <= j <= Math_round m + 2)%Z ->
  5 / 2 <= semitoneDist m j.
Proof.
  intros Hout. pose proof (Math_round_bounds m) as [Hlo Hhi].
  assert (Hj : (j <= Math_round m - 3 \/ Math_round m + 3 <= j)%Z) by lia.
  destruct Hj as [Hj | Hj]; apply IZR_le in Hj.
  - rewrite minus_IZR in Hj. abs_cases; lra.
  - rewrite plus_IZR in Hj. abs_cases; lra.
Qed.

(** What [snapMidi] answers, against all MIDI numbers rather than the
    window only. *)
Lemma snapMidi_nearest (m tol : R) (n : Note) :
  snapMidi m tol = Some n ->
  exists k, n = noteOfMidi k /\ isSharp k = false /\
            semitoneDist m k <= tol /\
            forall j, isSharp j = false -> semitoneDist m k <= semitoneDist m j.
Proof.
  intros Hsnap. pose proof (snapMidi_spec m tol) as Hspec. cbv zeta in Hspec.
  rewrite Hsnap in Hspec.
  destruct Hspec as (k & -> & Hk & Hnat & Htol & Hmin).
  exists k. repeat split; auto.
  intros j Hj.
  destruct (Z_le_dec (Math_round m - 2) j) as [H1 | H1];
    [destruct (Z_le_dec j (Math_round m + 2)) as [H2 | H2] |].
  - now apply Hmin.
  - destruct (window_has_natural m) as (j0 & Hw & Hs & Hd).
    destruct (Hmin j0 Hw Hs) as [Hle _].
    pose proof (@outside_window_far m j ltac:(lia)). lra.
  - destruct (window_has_natural m) as (j0 & Hw & Hs & Hd).
    destruct (Hmin j0 Hw Hs) as [Hle _].
    pose proof (@outside_window_far m j ltac:(lia)). lra.
Qed.


Lemma freqToNote_some_in_range (freq tol : R) (n : Note) :
  freqToNote freq tol = Some n ->
  27 <= freq <= 4200 /\ snapMidi (midiFloatOf freq) tol = Some n.
Proof.
  unfold freqToNote. intros H.
  destruct (Rltb freq 27) eqn:H1; [discriminate |].
  destruct (Rltb 4200 freq) eqn:H2; [discriminate |].
  apply Rltb_false in H1, H2. cbn in H. split; [lra | exact H].
Qed.






Lemma snapMidi_tol_weaken (m tol tol' : R) (n : Note) :
  tol <= tol' ->
  snapMidi m tol = Some n ->
  snapMidi m tol' = Some n.
Proof.
  intros Hle. unfold snapMidi.
  destruct (for_range _ _ (consider m) best0) as [[k |] d];
    cbn [bestMidi bestDist]; [| discriminate].
  destruct d as [| d]; cbn [ext_gt]; [discriminate |].
  destruct (Rltb tol d) eqn:H1; [discriminate |].
  apply Rltb_false in H1.
  assert (H2 : Rltb tol' d = false) by (apply Rltb_false; lra).
  now rewrite H2.
Qed.

(** X4.  A wider tolerance keeps every answer: what is accepted at one
    tolerance is accepted, as the same note, at any larger one. *)
Theorem freqToNote_tolerance_monotone (freq tol tol' : R) (n : Note) :
  tol <= tol' ->
  freqToNote freq tol = Some n ->
  freqToNote freq tol' = Some n.
Proof.
  intros Hle. unfold freqToNote.
  destruct (Rltb freq 27 || Rltb 4200 freq); [discriminate |].
  now apply snapMidi_tol_weaken.
Qed.

Lemma freqToNote_tolerance_monotone_witness :
  freqToNote 440 (1 / 2) = Some (mkNote "A" 4).
Proof.
  apply (@freqToNote_tolerance_monotone 440 (35 / 100) (1 / 2)); [lra |].
  apply freqToNote_440. lra.
Defined.

(** *** One octave up *)







(** *** The range of answers *)

Lemma midiFloatOf_monotone (f g : R) :
  0 < f -> f <= g -> midiFloatOf f <= midiFloatOf g.
Proof.
  intros Hf Hfg. unfold midiFloatOf, Math_log2.
  assert (Hln : ln (f / 440) <= ln (g / 440)).
  { destruct (Req_dec f g) as [-> | Hne]; [lra |].
    left. apply ln_increasing; lra. }
  pose proof ln2_pos as Hln2.
  assert (ln (f / 440) / ln 2 <= ln (g / 440) / ln 2).
  { unfold Rdiv. apply Rmult_le_compat_r; [| exact Hln].
    left. now apply Rinv_0_lt_compat. }
  lra.
Qed.

Lemma midiFloatOf_27 : 2052 / 100 < midiFloatOf 27 < 21.
Proof.
  unfold midiFloatOf.
  assert (Hx : 0 < 27 / 440) by lra.
  pose proof (@log2_lower (27 / 440) 101 25 Hx ltac:(lra)) as Hlo.
  pose proof (@log2_upper (27 / 440) 4 1 Hx ltac:(lra)) as Hup.
  simpl INR in Hlo, Hup. lra.
Qed.

Lemma midiFloatOf_4200 : 108 < midiFloatOf 4200 < 10843 / 100.
Proof.
  unfold midiFloatOf.
  assert (Hx : 0 < 4200 / 440) by lra.
  pose proof (@log2_lower_pos (4200 / 440) 13 4 Hx ltac:(lra)) as Hlo.
  pose proof (@log2_upper_pos (4200 / 440) 23 7 Hx ltac:(lra)) as Hup.
  simpl INR in Hlo, Hup. lra.
Qed.

Lemma midiFloatOf_range (freq : R) :
  27 <= freq <= 4200 -> 2052 / 100 < midiFloatOf freq < 10843 / 100.
Proof.
  intros [Hlo Hhi].
  pose proof (@midiFloatOf_monotone 27 freq ltac:(lra) Hlo).
  pose proof (@midiFloatOf_monotone freq 4200 ltac:(lra) Hhi).
  pose proof midiFloatOf_27. pose proof midiFloatOf_4200. lra.
Qed.

Lemma freqToNote_some_keyboard (freq tol : R) (n : Note) :
  freqToNote freq tol = Some n ->
  exists k, (21 <= k <= 108)%Z /\ isSharp k = false /\ n = noteOfMidi k.
Proof.
  intros H. apply freqToNote_some_in_range in H. destruct H as [Hr Hs].
  apply midiFloatOf_range in Hr.
  apply snapMidi_nearest in Hs. destruct Hs as (k & -> & Hk & _ & Hmin).
  pose proof (Hmin 21%Z eq_refl) as H21.
  pose proof (Hmin 108%Z eq_refl) as H108.
  assert (Hrange : (21 <= k <= 108)%Z).
  { split.
    - destruct (Z_le_dec 21 k) as [| Hn]; [assumption | exfalso].
      assert (Hk20 : (k <= 20)%Z) by lia. apply IZR_le in Hk20.
      abs_cases; lra.
    - destruct (Z_le_dec k 108) as [| Hn]; [assumption | exfalso].
      assert (Hk109 : (109 <= k)%Z) by lia. apply IZR_le in Hk109.
      abs_cases; lra. }
  exists k. now repeat split.
Qed.

Lemma keyboard_octave (k : Z) :
  (21 <= k <= 108)%Z -> (0 <= octaveOf k <= 8)%Z.
Proof.
  intros Hk. unfold octaveOf.
  pose proof (Z.div_le_mono 21 k 12 ltac:(lia) ltac:(lia)) as H1.
  pose proof (Z.div_le_mono k 108 12 ltac:(lia) ltac:(lia)) as H2.
  change (21 / 12)%Z with 1%Z in H1. change (108 / 12)%Z with 9%Z in H2. lia.
Qed.

(** X6.  Every answer of [freqToNote] is a key of the 88-key piano: a natural
    note between A0 (MIDI 21) and C8 (MIDI 108), so its octave is between
    0 and 8, whatever the tolerance. *)
Theorem freqToNote_on_keyboard (freq tol : R) (n : Note) :
  freqToNote freq tol = Some n ->
  exists k, (21 <= k <= 108)%Z /\ isNatural k = true /\ n = noteOfMidi k /\
            (0 <= octave n <= 8)%Z.
Proof.
  intros H. destruct (freqToNote_some_keyboard _ _ H) as (k & Hk & Hs & ->).
  exists k. split; [exact Hk |]. split; [unfold isNatural; now rewrite Hs |].
  split; [reflexivity |]. cbn [octave noteOfMidi]. now apply keyboard_octave.
Qed.

Lemma freqToNote_on_keyboard_witness :
  exists k, (21 <= k <= 108)%Z /\ isNatural k = true /\
            mkNote "A" 4 = noteOfMidi k /\
            (0 <= octave (mkNote "A" 4) <= 8)%Z.
Proof.
  apply (@freqToNote_on_keyboard 440 (45 / 100) (mkNote "A" 4)).
  apply freqToNote_440. lra.
Defined.

(** *** The rounding revision *)

(** X7.  With a tolerance under half a semitone the snapping [freqToNote] is a
    restriction of the earlier rounding [freqToNote]: whatever the former
    answers, the latter answers too. *)
Theorem freqToNote_refines_rounding (freq tol : R) (n : Note) :
  tol < 1 / 2 ->
  freqToNote freq tol = Some n ->
  MicUtilsRounding.freqToNote freq = Some n.
Proof.
  intros Htol H. unfold MicUtilsRounding.freqToNote.
  destruct (freqToNote_some_in_range _ _ H) as [Hr Hs].
  assert (H1 : Rltb freq 27 = false) by (apply Rltb_false; lra).
  assert (H2 : Rltb 4200 freq = false) by (apply Rltb_false; lra).
  rewrite H1, H2. cbn [orb].
  apply snapMidi_nearest in Hs. destruct Hs as (k & -> & Hk & Hd & _).
  fold (midiFloatOf freq).
  assert (Hround : Math_round (midiFloatOf freq) = k).
  { apply Math_round_unique. abs_cases; lra. }
  rewrite Hround. fold (isSharp k). rewrite Hk. reflexivity.
Qed.

Lemma freqToNote_refines_rounding_witness :
  MicUtilsRounding.freqToNote 440 = Some (mkNote "A" 4).
Proof.
  apply (@freqToNote_refines_rounding 440 (45 / 100)); [lra |].
  apply freqToNote_440. lra.
Defined.




(** *** [noteToFreq] and back *)

Import AudioUtils.

Lemma SEMITONES_letter (key : string) (s oct : Z) :
  SEMITONES key = Some s ->
  noteName ((oct + 1) * 12 + s) = key /\
  isNatural ((oct + 1) * 12 + s) = true /\
  octaveOf ((oct + 1) * 12 + s) = oct.
Proof.
  unfold SEMITONES, isNatural. intros H.
  assert (Hmod : forall r, (0 <= r < 12)%Z ->
                           (((oct + 1) * 12 + r) mod 12 = r)%Z).
  { intros r Hr. rewrite Z.add_comm, Z.mod_add by lia. now apply Z.mod_small. }
  assert (Hdiv : forall r, (0 <= r < 12)%Z ->
                           (((oct + 1) * 12 + r) / 12 - 1 = oct)%Z).
  { intros r Hr. rewrite Z.add_comm, Z.div_add by lia.
    rewrite Z.div_small by lia. lia. }
  rewrite isSharp_class. unfold noteName, octaveOf. rewrite pitchClass_mod.
  repeat match type of H with
         | (if String.eqb key ?l then _ else _) = _ =>
             let E := fresh "E" in
             destruct (String.eqb key l) eqn:E;
             [apply String.eqb_eq in E; subst key;
              injection H as <-;
              rewrite Hmod, Hdiv by lia; now cbn
             | clear E]
         end.
  discriminate.
Qed.

Lemma pow2_pos (x : R) : 0 < pow2 x.
Proof. unfold pow2, Rpower. apply exp_pos. Qed.

Lemma midiFloatOf_pitch (k : Z) :
  midiFloatOf (440 * pow2 (IZR (k - 69) / 12)) = IZR k.
Proof.
  unfold midiFloatOf, pow2.
  replace (440 * Rpower 2 (IZR (k - 69) / 12) / 440)
    with (Rpower 2 (IZR (k - 69) / 12)) by (field; lra).
  rewrite log2_pow2, minus_IZR. field.
Qed.

(** The equal-tempered pitch of MIDI number [k] is inside the range that
    [freqToNote] accepts exactly for the 88 keys. *)
Lemma pitch_in_range (k : Z) :
  27 <= 440 * pow2 (IZR (k - 69) / 12) <= 4200 <-> (21 <= k <= 108)%Z.
Proof.
  set (f := 440 * pow2 (IZR (k - 69) / 12)).
  assert (Hf : 0 < f).
  { unfold f. pose proof (pow2_pos (IZR (k - 69) / 12)). lra. }
  assert (Hm : midiFloatOf f = IZR k) by apply midiFloatOf_pitch.
  pose proof midiFloatOf_27 as H27. pose proof midiFloatOf_4200 as H4200.
  split.
  - intros Hr. apply midiFloatOf_range in Hr. rewrite Hm in Hr.
    destruct Hr as [Hlo Hhi]. split.
    + destruct (Z_le_dec 21 k) as [| Hn]; [assumption | exfalso].
      assert (Hk : (k <= 20)%Z) by lia. apply IZR_le in Hk. lra.
    + destruct (Z_le_dec k 108) as [| Hn]; [assumption | exfalso].
      assert (Hk : (109 <= k)%Z) by lia. apply IZR_le in Hk. lra.
  - intros [Hlo Hhi]. apply IZR_le in Hlo, Hhi. split.
    + destruct (Rle_dec 27 f) as [| Hn]; [assumption | exfalso].
      pose proof (@midiFloatOf_monotone f 27 Hf ltac:(lra)). lra.
    + destruct (Rle_dec f 4200) as [| Hn]; [assumption | exfalso].
      pose proof (@midiFloatOf_monotone 4200 f ltac:(lra) ltac:(lra)). lra.
Qed.

(** The equal-tempered pitch of a natural key is heard as that key. *)
Lemma pitch_heard_back (k : Z) (tol : R) :
  (21 <= k <= 108)%Z -> isNatural k = true -> 0 <= tol ->
  freqToNote (440 * pow2 (IZR (k - 69) / 12)) tol = Some (noteOfMidi k).
Proof.
  intros Hkey Hnat Htol.
  rewrite freqToNote_in_range by (now apply pitch_in_range).
  rewrite midiFloatOf_pitch.
  assert (Hd : semitoneDist (IZR k) k = 0).
  { unfold semitoneDist. replace (IZR k - IZR k) with 0 by lra. apply Rabs_R0. }
  destruct (@snapMidi_near_natural (IZR k) tol k Hnat) as [H | (Hm & _)].
  - rewrite Hd. lra.
  - rewrite Hd. exact Htol.
  - exact H.
  - lra.
Qed.

(** X9.  Round trip for the 88 keys: the pitch [noteToFreq] gives for a natural
    note between A0 and C8 is heard back by [freqToNote] as that very
    note, at any tolerance. *)
Theorem noteToFreq_heard_back (note : string) (oct s : Z) (tol : R) :
  SEMITONES (toUpperCase note) = Some s ->
  (21 <= (oct + 1) * 12 + s <= 108)%Z ->
  0 <= tol ->
  exists f, noteToFreq note oct = Some f /\
            freqToNote f tol = Some (mkNote (toUpperCase note) oct).
Proof.
  intros Hs Hkey Htol. unfold noteToFreq. rewrite Hs. cbv zeta.
  eexists. split; [reflexivity |].
  destruct (@SEMITONES_letter _ _ oct Hs) as (Hname & Hnat & Hoct).
  rewrite pitch_heard_back by assumption.
  unfold noteOfMidi. now rewrite Hname, Hoct.
Qed.

Lemma noteToFreq_heard_back_witness :
  exists f, noteToFreq "g" 2 = Some f /\
            freqToNote f (35 / 100) = Some (mkNote (toUpperCase "g") 2).
Proof.
  apply (@noteToFreq_heard_back "g" 2 7 (35 / 100));
    [reflexivity | lia | lra].
Defined.

(** X10.  Off the keyboard: the pitch [noteToFreq] gives for a note below A0 or
    above C8 is never accepted by [freqToNote]. *)
Theorem noteToFreq_off_keyboard (note : string) (oct s : Z) (f tol : R) :
  SEMITONES (toUpperCase note) = Some s ->
  ((oct + 1) * 12 + s < 21 \/ 108 < (oct + 1) * 12 + s)%Z ->
  noteToFreq note oct = Some f ->
  freqToNote f tol = None.
Proof.
  intros Hs Hkey. unfold noteToFreq. rewrite Hs. cbv zeta. intros [= <-].
  apply freqToNote_out_of_range.
  set (k := ((oct + 1) * 12 + s)%Z) in *.
  pose proof (pitch_in_range k) as [Hin _].
  destruct (Rlt_dec (440 * pow2 (IZR (k - 69) / 12)) 27) as [| H1]; [now left |].
  destruct (Rlt_dec 4200 (440 * pow2 (IZR (k - 69) / 12))) as [| H2];
    [now right |].
  exfalso. assert (21 <= k <= 108)%Z by (apply Hin; lra). lia.
Qed.

Lemma noteToFreq_off_keyboard_witness :
  freqToNote (440 * pow2 (IZR ((0 + 1) * 12 + 0 - 69) / 12)) (1 / 2) = None.
Proof.
  apply (@noteToFreq_off_keyboard "c" 0 0); [reflexivity | lia | reflexivity].
Defined.

(** One octave up in [noteToFreq] doubles the frequency. *)
Lemma noteToFreq_octave (note : string) (oct : Z) :
  noteToFreq note (oct + 1) = option_map (Rmult 2) (noteToFreq note oct).
Proof.
  unfold noteToFreq. destruct (SEMITONES (toUpperCase note)) as [s |];
    [| reflexivity].
  cbn [option_map]. f_equal. unfold pow2.
  replace (IZR ((oct + 1 + 1) * 12 + s - 69) / 12)
    with (IZR ((oct + 1) * 12 + s - 69) / 12 + 1).
  - rewrite Rpower_plus, Rpower_1 by lra. ring.
  - rewrite !minus_IZR, !plus_IZR, !mult_IZR, !plus_IZR. field.
Qed.

End NoteMapperMore.

(** ** More on [getRms] *)

Section RmsMore.

Lemma sumSquares_nonneg (buf : list R) : 0 <= sumSquares buf.
Proof.
  induction buf as [| x l IH].
  - unfold sumSquares. simpl. lra.
  - rewrite sumSquares_cons. pose proof (Rle_0_sqr x) as Hx.
    unfold Rsqr in Hx. lra.
Qed.



Lemma sumSquares_zero (buf : list R) :
  sumSquares buf = 0 <-> Forall (eq 0) buf.
Proof.
  induction buf as [| x l IH].
  - split; [constructor | reflexivity].
  - rewrite sumSquares_cons.
    pose proof (sumSquares_nonneg l) as Hl.
    pose proof (Rle_0_sqr x) as Hx. unfold Rsqr in Hx.
    split.
    + intros H. assert (Hx0 : x * x = 0) by lra.
      assert (Hl0 : sumSquares l = 0) by lra.
      constructor; [| now apply IH].
      symmetry. destruct (Rmult_integral _ _ Hx0); assumption.
    + intros H. inversion H as [| y l' Hy Hl']; subst.
      apply IH in Hl'. rewrite Hl'. lra.
Qed.




(** X13.  The RMS is exactly zero only on a non-empty buffer of zeros: any
    non-zero sample gives a positive RMS, and the empty buffer gives
    [NaN]. *)
Theorem getRms_zero_iff (buf : list R) :
  getRms buf = Num 0 <-> buf <> [] /\ Forall (eq 0) buf.
Proof.
  destruct buf as [| x l].
  - split; [discriminate | intros [H _]; contradiction].
  - rewrite getRms_nonempty by discriminate.
    set (n := INR (List.length (x :: l))).
    assert (Hn : 0 < n) by (apply lt_0_INR; simpl; lia).
    pose proof (sumSquares_nonneg (x :: l)) as Hs.
    assert (Hq : 0 <= sumSquares (x :: l) / n).
    { apply Rmult_le_pos; [exact Hs |]. left. now apply Rinv_0_lt_compat. }
    split.
    + intros [= H]. split; [discriminate |].
      apply sumSquares_zero.
      apply sqrt_eq_0 in H; [| exact Hq].
      apply Rmult_eq_compat_r with (r := n) in H.
      replace (sumSquares (x :: l) / n * n) with (sumSquares (x :: l)) in H
        by (field; lra).
      lra.
    + intros [_ H]. apply sumSquares_zero in H. rewrite H.
      replace (0 / n) with 0 by (field; lra). now rewrite sqrt_0.
Qed.

End RmsMore.

(** ** More on the firing gate *)

Section GateMore.

Import NoteMapper MicUtils.

(** *** Support counting *)

Lemma track_count (note : option Note) (st : State) :
  (0 <= stableCount st)%Z ->
  (0 <= stableCount (track note st)
   <= stableCount st + match note with Some _ => 1 | None => 0 end)%Z.
Proof.
  intros H0. unfold track. destruct note as [n |]; [| lia].
  destruct (stableNote st) as [s |]; [| cbn; lia].
  destruct (String.eqb (name n) (name s)); cbn; lia.
Qed.

Lemma fire_count (now : Z) (st : State) :
  (0 <= stableCount st)%Z ->
  (3 * fires (snd (fire now st)) + stableCount (fst (fire now st))
   <= stableCount st)%Z /\
  (0 <= stableCount (fst (fire now st)))%Z.
Proof.
  intros H0. unfold fire, fires, STABLE_FRAMES.
  destruct (stableNote st) as [s |]; [| cbn; lia].
  destruct (Z.leb_spec 3 (stableCount st)); [| cbn; lia].
  destruct (_ <? ANY_NOTE_COOLDOWN_MS)%Z; [cbn; lia |].
  destruct (negb _ || _); cbn; lia.
Qed.

Lemma gate_support (note : option Note) (now : Z) (raf : positive) (st : State) :
  (0 <= stableCount st)%Z ->
  (3 * fires (snd (gate note now raf st)) + stableCount (fst (gate note now raf st))
   <= stableCount st + Z.of_nat (List.length (candidates [(note, now, raf)])))%Z /\
  (0 <= stableCount (fst (gate note now raf st)))%Z.
Proof.
  intros H0. pose proof (@track_count note st H0) as Ht.
  assert (Hc : Z.of_nat (List.length (candidates [(note, now, raf)]))
               = match note with Some _ => 1%Z | None => 0%Z end).
  { unfold candidates. cbn. now destruct note. }
  rewrite Hc.
  destruct (Z.lt_ge_cases now (suppressUntil st)) as [Hs | Hs].
  - rewrite gate_suppressed by exact Hs. unfold fires. cbn. lia.
  - rewrite gate_open by exact Hs. cbn [fst snd]. cbn [stableCount set_rafId].
    destruct (@fire_count now (track note st)) as [H1 H2]; [lia |]. lia.
Qed.

Lemma candidates_cons (i : option Note * Z * positive)
      (rest : list (option Note * Z * positive)) :
  List.length (candidates (i :: rest)) =
  (List.length (candidates [i]) + List.length (candidates rest))%nat.
Proof.
  unfold candidates. cbn [flat_map]. rewrite app_nil_r. apply length_app.
Qed.

Lemma fires_app (a b : list event) : fires (a ++ b) = (fires a + fires b)%Z.
Proof.
  unfold fires. rewrite onNoteCalls_app, length_app. lia.
Qed.

(** X14.  Every [onNote] call is paid for by three frames with a candidate:
    three times the number of calls, plus the support count left at the
    end, never exceeds the support count at the start plus the number of
    frames that carried a candidate. *)
Theorem fires_need_three_candidates
        (inputs : list (option Note * Z * positive)) (st : State) :
  (0 <= stableCount st)%Z ->
  (3 * fires (snd (runGate inputs st)) + stableCount (fst (runGate inputs st))
   <= stableCount st + Z.of_nat (List.length (candidates inputs)))%Z.
Proof.
  revert st.
  assert (H : forall st, (0 <= stableCount st)%Z ->
    (3 * fires (snd (runGate inputs st)) + stableCount (fst (runGate inputs st))
     <= stableCount st + Z.of_nat (List.length (candidates inputs)))%Z /\
    (0 <= stableCount (fst (runGate inputs st)))%Z).
  { induction inputs as [| [[note now] raf] rest IH]; intros st H0.
    - cbn. unfold fires. cbn. lia.
    - cbn [runGate].
      destruct (@gate_support note now raf st H0) as [H1 H2].
      destruct (gate note now raf st) as [st1 evs1]. cbn [fst snd] in *.
      destruct (IH st1 H2) as [H3 H4].
      destruct (runGate rest st1) as [st2 evs2]. cbn [fst snd] in *.
      rewrite fires_app, candidates_cons. split; [lia | exact H4]. }
  intros st H0. now apply H.
Qed.

Lemma fires_need_three_candidates_witness :
  (3 * fires (snd (runGate [(Some (mkNote "A" 4), 1000%Z, 1%positive);
                            (None, 1016%Z, 2%positive);
                            (Some (mkNote "A" 4), 1032%Z, 3%positive);
                            (Some (mkNote "A" 4), 1048%Z, 4%positive)] init))
   + stableCount
       (fst (runGate [(Some (mkNote "A" 4), 1000%Z, 1%positive);
                      (None, 1016%Z, 2%positive);
                      (Some (mkNote "A" 4), 1032%Z, 3%positive);
                      (Some (mkNote "A" 4), 1048%Z, 4%positive)] init))
   <= stableCount init + 3)%Z.
Proof.
  apply (@fires_need_three_candidates
           [(Some (mkNote "A" 4), 1000%Z, 1%positive);
            (None, 1016%Z, 2%positive);
            (Some (mkNote "A" 4), 1032%Z, 3%positive);
            (Some (mkNote "A" 4), 1048%Z, 4%positive)] init).
  cbn. lia.
Defined.

(** *** Rate limit *)

Lemma gate_lastFiredTime (note : option Note) (now : Z) (raf : positive)
      (st : State) :
  (snd (gate note now raf st) = [] /\
   lastFiredTime (fst (gate note now raf st)) = lastFiredTime st) \/
  (fires (snd (gate note now raf st)) = 1%Z /\
   lastFiredTime (fst (gate note now raf st)) = now /\
   (ANY_NOTE_COOLDOWN_MS <= now - lastFiredTime st)%Z).
Proof.
  destruct (track_keeps note st) as (Hsup & _ & Htime).
  destruct (Z.lt_ge_cases now (suppressUntil st)) as [Hs | Hs].
  - left. rewrite gate_suppressed by exact Hs. cbn. now rewrite Htime.
  - rewrite gate_open by exact Hs. cbn [fst snd].
    cbn [lastFiredTime set_rafId]. unfold fire.
    destruct (stableNote (track note st)) as [s |]; [| left; now cbn].
    destruct (STABLE_FRAMES <=? _)%Z; [| left; now cbn].
    rewrite Htime.
    destruct (Z.ltb_spec (now - lastFiredTime st) ANY_NOTE_COOLDOWN_MS);
      [left; now cbn |].
    destruct (negb _ || _); [| left; now cbn].
    right. cbn. repeat split. lia.
Qed.

Lemma window_blocked (T : Z) (inputs : list (option Note * Z * positive)) :
  forall st : State,
    (T <= lastFiredTime st)%Z ->
    Forall (fun i => (clockOf i < T + ANY_NOTE_COOLDOWN_MS)%Z) inputs ->
    snd (runGate inputs st) = [].
Proof.
  induction inputs as [| [[note now] raf] rest IH]; intros st HT Hall.
  - reflexivity.
  - inversion Hall as [| x l Hnow Hrest]; subst. unfold clockOf in Hnow.
    cbn [fst snd] in Hnow. cbn [runGate].
    destruct (gate_lastFiredTime note now raf st) as [[He Ht] | (_ & _ & Hc)];
      [| lia].
    destruct (gate note now raf st) as [st1 evs1]. cbn [fst snd] in *.
    subst evs1. assert (IHr := IH st1 ltac:(lia) Hrest).
    destruct (runGate rest st1) as [st2 evs2]. cbn [fst snd] in *.
    now subst.
Qed.

(** X15.  Rate limit: while the clock stays inside a window shorter than the
    any-note cooldown (100 ms), [onNote] is called at most once, whatever
    is detected and whatever the state at the start. *)
Theorem one_fire_per_window (T : Z)
        (inputs : list (option Note * Z * positive)) (st : State) :
  Forall (fun i => (T <= clockOf i < T + ANY_NOTE_COOLDOWN_MS)%Z) inputs ->
  (fires (snd (runGate inputs st)) <= 1)%Z.
Proof.
  revert st.
  induction inputs as [| [[note now] raf] rest IH]; intros st Hall.
  - cbn. unfold fires. cbn. lia.
  - inversion Hall as [| x l Hnow Hrest]; subst. unfold clockOf in Hnow.
    cbn [fst snd] in Hnow. cbn [runGate].
    destruct (gate_lastFiredTime note now raf st) as [[He Ht] | (Hf & Ht & _)].
    + specialize (IH (fst (gate note now raf st)) Hrest).
      destruct (gate note now raf st) as [st1 evs1]. cbn [fst snd] in *.
      subst evs1.
      destruct (runGate rest st1) as [st2 evs2]. cbn [fst snd app] in *.
      exact IH.
    + assert (Hb : snd (runGate rest (fst (gate note now raf st))) = []).
      { apply window_blocked with (T := T); [lia |].
        eapply Forall_impl; [| exact Hrest]. cbn beta. intros a Ha. lia. }
      destruct (gate note now raf st) as [st1 evs1]. cbn [fst snd] in *.
      destruct (runGate rest st1) as [st2 evs2]. cbn [fst snd] in *.
      subst evs2. rewrite app_nil_r. lia.
Qed.

Lemma one_fire_per_window_witness :
  (fires (snd (runGate [(Some (mkNote "A" 4), 1000%Z, 1%positive);
                        (Some (mkNote "A" 4), 1016%Z, 2%positive);
                        (Some (mkNote "A" 4), 1032%Z, 3%positive);
                        (Some (mkNote "B" 4), 1048%Z, 4%positive);
                        (Some (mkNote "B" 4), 1064%Z, 5%positive);
                        (Some (mkNote "B" 4), 1080%Z, 6%positive)] init))
   <= 1)%Z.
Proof.
  apply (@one_fire_per_window 1000).
  unfold ANY_NOTE_COOLDOWN_MS, clockOf.
  repeat constructor; cbn [fst snd]; lia.
Defined.

(** *** Where fired notes come from *)

Lemma note_eta (s : Note) : mkNote (name s) (octave s) = s.
Proof. now destruct s. Qed.

Lemma track_stableNote (note : option Note) (st : State) :
  stableNote (track note st) = stableNote st \/
  exists n, note = Some n /\ stableNote (track note st) = Some n.
Proof.
  unfold track. destruct note as [n |]; [| now left].
  destruct (stableNote st) as [s |] eqn:Hs.
  - destruct (String.eqb (name n) (name s)); cbn.
    + now left.
    + right. now exists n.
  - right. now exists n.
Qed.

Lemma gate_stableNote (P : Note -> Prop) (note : option Note) (now : Z)
      (raf : positive) (st : State) :
  (forall s, stableNote st = Some s -> P s) ->
  (forall n, note = Some n -> P n) ->
  (forall s, stableNote (fst (gate note now raf st)) = Some s -> P s) /\
  (forall nm oc, In (OnNote nm oc) (snd (gate note now raf st)) ->
                 P (mkNote nm oc)).
Proof.
  intros Hst Hnote.
  assert (Ht : forall s, stableNote (track note st) = Some s -> P s).
  { intros s Hs. destruct (track_stableNote note st) as [He | (n & -> & He)].
    - apply Hst. now rewrite <- He.
    - apply Hnote. now rewrite <- Hs, He. }
  destruct (Z.lt_ge_cases now (suppressUntil st)) as [Hs | Hs].
  - rewrite gate_suppressed by exact Hs. cbn. split; [discriminate | tauto].
  - rewrite gate_open by exact Hs. cbn [fst snd]. cbn [stableNote set_rafId].
    destruct (stableNote (track note st)) as [s |] eqn:Hsn.
    + rewrite (@fire_cases now s (track note st) Hsn).
      destruct (_ && _); cbn.
      * split; [discriminate |].
        intros nm oc [[= <- <-] | []]. rewrite note_eta. now apply Ht.
      * split; [| tauto]. intros s' Hs'. apply Ht. congruence.
    + unfold fire. rewrite Hsn. cbn. rewrite Hsn. split; [discriminate | tauto].
Qed.

Lemma runGate_fired (P : Note -> Prop)
      (inputs : list (option Note * Z * positive)) :
  forall st : State,
    (forall s, stableNote st = Some s -> P s) ->
    Forall P (candidates inputs) ->
    forall nm oc, In (OnNote nm oc) (snd (runGate inputs st)) ->
                  P (mkNote nm oc).
Proof.
  induction inputs as [| [[note now] raf] rest IH]; intros st Hst Hall nm oc Hin.
  - destruct Hin.
  - cbn [runGate] in Hin.
    unfold candidates in Hall. cbn [flat_map fst] in Hall.
    apply Forall_app in Hall. destruct Hall as [Hhd Htl].
    destruct (@gate_stableNote P note now raf st Hst) as [H1 H2].
    { intros n ->. now inversion Hhd. }
    specialize (IH (fst (gate note now raf st)) H1 Htl nm oc).
    destruct (gate note now raf st) as [st1 evs1]. cbn [fst snd] in *.
    destruct (runGate rest st1) as [st2 evs2]. cbn [fst snd] in *.
    apply in_app_or in Hin. destruct Hin as [Hin | Hin]; [now apply H2 | now apply IH].
Qed.

(** X16.  Every note handed to [onNote] was detected: it is one of the
    candidates fed to the gate, or the note being tracked at the start. *)
Theorem fired_notes_were_detected
        (inputs : list (option Note * Z * positive)) (st : State)
        (nm : string) (oc : Z) :
  In (OnNote nm oc) (snd (runGate inputs st)) ->
  In (mkNote nm oc) (candidates inputs) \/
  stableNote st = Some (mkNote nm oc).
Proof.
  apply (@runGate_fired
           (fun n => In n (candidates inputs) \/ stableNote st = Some n)).
  - intros s Hs. now right.
  - apply Forall_forall. intros n Hn. now left.
Qed.

Lemma fired_notes_were_detected_witness :
  In (mkNote "A" 4)
     (candidates [(Some (mkNote "A" 4), 1000%Z, 1%positive);
                  (Some (mkNote "A" 4), 1016%Z, 2%positive);
                  (Some (mkNote "A" 4), 1032%Z, 3%positive)]) \/
  stableNote init = Some (mkNote "A" 4).
Proof.
  apply (@fired_notes_were_detected
           [(Some (mkNote "A" 4), 1000%Z, 1%positive);
            (Some (mkNote "A" 4), 1016%Z, 2%positive);
            (Some (mkNote "A" 4), 1032%Z, 3%positive)] init "A" 4).
  cbn. now left.
Defined.

Lemma detect_piano_natural (preset : Preset) (fr : Frame) (n : Note) :
  fst (detect preset fr) = Some n ->
  In (name n) naturalNames /\ (0 <= octave n <= 8)%Z.
Proof.
  unfold detect. cbn [fst].
  destruct (Rltb 0 _); [| discriminate].
  intros H. split.
  - destruct (freqToNote_some_keyboard _ _ H) as (k & _ & Hk & ->).
    cbn [name noteOfMidi]. now apply natural_letter.
  - destruct (freqToNote_some_keyboard _ _ H) as (k & Hk & _ & ->).
    cbn [octave noteOfMidi]. now apply keyboard_octave.
Qed.

Lemma candidates_gateInput (preset : Preset) (frames : list Frame) :
  Forall (fun n => In (name n) naturalNames /\ (0 <= octave n <= 8)%Z)
         (candidates (map (gateInput preset) frames)).
Proof.
  induction frames as [| fr rest IH]; [constructor |].
  cbn [map]. unfold candidates. cbn [flat_map].
  apply Forall_app. split; [| exact IH].
  unfold gateInput. cbn [fst].
  destruct (fst (detect preset fr)) as [n |] eqn:Hd; [| constructor].
  constructor; [| constructor]. now apply detect_piano_natural with preset fr.
Qed.

(** X17.  A session that starts with nothing tracked only ever reports natural
    notes of the 88-key piano: every [onNote] call carries one of the
    letters C D E F G A B and an octave between 0 and 8. *)
Theorem run_fires_piano_naturals (preset : Preset) (frames : list Frame)
        (st : State) (nm : string) (oc : Z) :
  stableNote st = None ->
  In (OnNote nm oc) (snd (run preset frames st)) ->
  In nm naturalNames /\ (0 <= oc <= 8)%Z.
Proof.
  intros Hst Hin.
  assert (Hin' : In (OnNote nm oc) (onNoteCalls (snd (run preset frames st)))).
  { apply filter_In. split; [exact Hin | reflexivity]. }
  destruct (run_runGate preset frames st) as [_ Hev]. rewrite Hev in Hin'.
  apply (@runGate_fired
           (fun n => In (name n) naturalNames /\ (0 <= octave n <= 8)%Z)
           (map (gateInput preset) frames) st) in Hin'.
  - exact Hin'.
  - intros s Hs. congruence.
  - apply candidates_gateInput.
Qed.

Lemma run_fires_piano_naturals_witness :
  In "A"%string naturalNames /\ (0 <= 4 <= 8)%Z.
Proof.
  apply (@run_fires_piano_naturals normal
           [toneFrame 1000 1; toneFrame 1016 2; toneFrame 1032 3] init "A" 4);
    [reflexivity |].
  assert (H : In (OnNote "A" 4)
                 (onNoteCalls
                    (snd (run normal
                              [toneFrame 1000 1; toneFrame 1016 2;
                               toneFrame 1032 3] init)))).
  { destruct (@sustained_run init (toneFrame 1000 1) (toneFrame 1016 2)
                (toneFrame 1032 3) []) as [[Hev _] _].
    - exact init_fresh.
    - repeat constructor; apply sustained440_tone.
    - cbn [frame_now toneFrame]. lia.
    - cbn [frame_now toneFrame]. lia.
    - cbn [frame_now toneFrame]. lia.
    - constructor.
    - rewrite Hev. now left. }
  apply filter_In in H. exact (proj1 H).
Defined.

(** *** Firing without a candidate *)

Lemma detect_below_threshold (preset : Preset) (fr : Frame) :
  num_ge (getRms (frame_buf fr)) (rmsThreshold preset) = false ->
  detect preset fr = (None, -1).
Proof.
  intros Hq. unfold detect. rewrite Hq.
  assert (H : Rltb 0 (-1) = false) by (apply Rltb_false; lra).
  now rewrite H.
Qed.

(** X18.  The firing decision does not need a detection in the same frame: a
    frame below the loudness threshold, in which the detector is not even
    run, still calls [onNote] for the note tracked so far once that note
    has its three frames and the cooldowns allow it. *)
Theorem loop_fires_on_silent_frame (preset : Preset) (fr : Frame) (st : State)
        (s : Note) :
  num_ge (getRms (frame_buf fr)) (rmsThreshold preset) = false ->
  stableNote st = Some s ->
  (STABLE_FRAMES <= stableCount st)%Z ->
  (suppressUntil st <= frame_now fr)%Z ->
  cooldowns_ok (name s) (frame_now fr) st ->
  snd (loop preset fr st) = [OnNote (name s) (octave s)].
Proof.
  intros Hq Hs Hc Hsup Hcool. unfold loop.
  rewrite detect_below_threshold by exact Hq.
  rewrite gate_open by exact Hsup. cbn [track heard app].
  now rewrite (@fire_eligible (frame_now fr) s st Hs Hc Hcool).
Qed.

Lemma loop_fires_on_silent_frame_witness :
  snd (loop normal (mkFrame [0; 0; 0; 0] None 2600 9)
            (fst (runGate [(Some (mkNote "A" 4), 1000%Z, 1%positive);
                           (Some (mkNote "A" 4), 1016%Z, 2%positive);
                           (Some (mkNote "A" 4), 1032%Z, 3%positive);
                           (Some (mkNote "A" 4), 1048%Z, 4%positive);
                           (Some (mkNote "A" 4), 1064%Z, 5%positive);
                           (Some (mkNote "A" 4), 1080%Z, 6%positive)] init))) =
  [OnNote "A" 4].
Proof.
  apply (@loop_fires_on_silent_frame normal (mkFrame [0; 0; 0; 0] None 2600 9)
           _ (mkNote "A" 4)).
  - cbn [frame_buf]. change [0; 0; 0; 0] with (repeat 0 4).
    rewrite getRms_constant by (lra || lia).
    apply Rleb_false. unfold normal. cbn [rmsThreshold]. lra.
  - reflexivity.
  - apply Z.leb_le. reflexivity.
  - apply Z.leb_le. reflexivity.
  - split; [apply Z.leb_le; reflexivity | right; apply Z.ltb_lt; reflexivity].
Defined.

(** *** The presets compared *)

Lemma num_ge_weaken (x : jsnum) (t t' : R) :
  t' <= t -> num_ge x t = true -> num_ge x t' = true.
Proof.
  destruct x as [r |]; [| discriminate]. cbn. intros Hle H.
  apply Rleb_true in H. apply Rleb_true. lra.
Qed.

Lemma detect_weaken (p q : Preset) (fr : Frame) (n : Note) (f : R) :
  rmsThreshold q <= rmsThreshold p ->
  snapTolerance p <= snapTolerance q ->
  detect p fr = (Some n, f) -> detect q fr = (Some n, f).
Proof.
  intros Hrms Htol. unfold detect.
  destruct (num_ge (getRms (frame_buf fr)) (rmsThreshold p)) eqn:Hp.
  - rewrite (num_ge_weaken _ Hrms Hp).
    destruct (Rltb 0 _); [| discriminate].
    intros [= H <-]. revert H. unfold freqToNote.
    destruct (Rltb _ 27 || Rltb 4200 _); [discriminate |].
    intros H. now rewrite (snapMidi_tol_weaken _ Htol H).
  - assert (H : Rltb 0 (-1) = false) by (apply Rltb_false; lra).
    rewrite H. discriminate.
Qed.

(** X19.  The three presets are ordered: on the same samples and the same
    detector answer, a candidate that [strict] accepts is accepted, as the
    same note, by [normal], and one that [normal] accepts by [piano]. *)
Theorem presets_ordered (fr : Frame) (n : Note) (f : R) :
  (detect strict fr = (Some n, f) -> detect normal fr = (Some n, f)) /\
  (detect normal fr = (Some n, f) -> detect piano fr = (Some n, f)).
Proof.
  split; apply detect_weaken; unfold strict, normal, piano;
    cbn [rmsThreshold snapTolerance]; lra.
Qed.

End GateMore.

(** ** More on starting and stopping *)

Section LifecycleMore.

Import MicUtils.

Lemma track_graph (note : option Note) (st : State) :
  audioCtx (track note st) = audioCtx st /\
  source (track note st) = source st /\
  stream (track note st) = stream st.
Proof.
  unfold track. destruct note as [n |]; [| now repeat split].
  destruct (stableNote st) as [s |]; [| now repeat split].
  destruct (String.eqb (name n) (name s)); now repeat split.
Qed.

Lemma fire_graph (now : Z) (st : State) :
  audioCtx (fst (fire now st)) = audioCtx st /\
  source (fst (fire now st)) = source st /\
  stream (fst (fire now st)) = stream st.
Proof.
  unfold fire. destruct (stableNote st) as [s |]; [| now repeat split].
  destruct (STABLE_FRAMES <=? stableCount st)%Z; [| now repeat split].
  destruct (_ <? ANY_NOTE_COOLDOWN_MS)%Z; [now repeat split |].
  destruct (negb _ || _); now repeat split.
Qed.

(** A frame of the loop leaves the audio graph alone and records the
    identifier of the next frame callback. *)
Lemma loop_graph (preset : Preset) (fr : Frame) (st : State) :
  audioCtx (fst (loop preset fr st)) = audioCtx st /\
  source (fst (loop preset fr st)) = source st /\
  stream (fst (loop preset fr st)) = stream st /\
  rafId (fst (loop preset fr st)) = Some (frame_raf fr).
Proof.
  destruct (loop_gate preset fr st) as [-> _].
  destruct (track_graph (fst (detect preset fr)) st) as (Ha & Hs & Hm).
  destruct (Z.lt_ge_cases (frame_now fr) (suppressUntil st)) as [Hsup | Hsup].
  - rewrite gate_suppressed by exact Hsup.
    cbn [fst audioCtx source stream rafId set_rafId set_stable].
    now rewrite Ha, Hs, Hm.
  - rewrite gate_open by exact Hsup. cbn [fst].
    destruct (fire_graph (frame_now fr) (track (fst (detect preset fr)) st))
      as (Ha' & Hs' & Hm').
    cbn [audioCtx source stream rafId set_rafId].
    now rewrite Ha', Hs', Hm', Ha, Hs, Hm.
Qed.

Lemma loop_no_release (preset : Preset) (fr : Frame) (st : State) :
  Forall (fun e => isRelease e = false) (snd (loop preset fr st)).
Proof.
  unfold loop. destruct (detect preset fr) as [note freq].
  pose proof (gate_only_onNote note (frame_now fr) (frame_raf fr) st) as Hg.
  destruct (gate note (frame_now fr) (frame_raf fr) st) as [st' fired].
  cbn [fst snd] in *. apply Forall_app. split.
  - unfold heard. destruct note as [n |]; [| constructor].
    destruct (String.eqb (name n) ""); repeat constructor.
  - rewrite <- Hg. apply Forall_forall. intros e He.
    apply filter_In in He. destruct He as [_ He]. now destruct e.
Qed.

(** What [startMicListening] leaves in the module variables. *)
Lemma start_effect (br : Browser) (options : Options) (st : State) :
  Forall (fun e => isRelease e = false) (startedEvents br options st) /\
  stream (startedState br options st) =
    match getUserMedia br with
    | Normal s => Some s
    | Throw _ => stream st
    end /\
  audioCtx (startedState br options st) =
    match getUserMedia br, newAudioContext br with
    | Normal _, Normal c => Some c
    | _, _ => audioCtx st
    end /\
  source (startedState br options st) =
    match getUserMedia br, newAudioContext br, createAnalyser br,
          createMediaStreamSource br with
    | Normal _, Normal _, Normal _, Normal src => Some src
    | _, _, _, _ => source st
    end /\
  rafId (startedState br options st) =
    match firstFailure br with
    | None => Some (frame_raf (firstFrame br))
    | Some _ => rafId st
    end.
Proof.
  unfold startedState, startedEvents, startMicListening, firstFailure,
    tryCatch, bind, call, modify, ret, liftLoop.
  destruct (getUserMedia br) as [s | e]; [| now repeat split].
  destruct (newAudioContext br) as [c | e]; [| now repeat split].
  destruct (createAnalyser br) as [a | e]; [| now repeat split].
  destruct (createMediaStreamSource br) as [src | e]; [| now repeat split].
  destruct (connect br) as [u | e]; [| now repeat split].
  destruct (newYIN br) as [u' | e]; [| now repeat split].
  match goal with
  | |- context [loop ?p ?fr ?s0] =>
      pose proof (loop_graph p fr s0) as (Ha & Hs & Hm & Hr);
      pose proof (loop_no_release p fr s0) as Hev;
      destruct (loop p fr s0) as [st' evs]
  end.
  cbn [fst snd app] in *. rewrite app_nil_r.
  repeat split; assumption.
Qed.

(** X20.  [startMicListening] itself gives nothing back, even when it fails
    half-way; a [stopMicListening] after it releases everything that was
    acquired: the stream's tracks are stopped, the context is closed, the
    source is disconnected and the pending frame callback is cancelled. *)
Theorem start_then_stop_releases (br : Browser) (options : Options) (st : State) :
  Forall (fun e => isRelease e = false) (startedEvents br options st) /\
  (forall s, getUserMedia br = Normal s ->
     In (StopTracks s)
        (snd (stopMicListening (startedState br options st)))) /\
  (forall s c, getUserMedia br = Normal s -> newAudioContext br = Normal c ->
     In (CloseContext c)
        (snd (stopMicListening (startedState br options st)))) /\
  (forall s c a src,
     getUserMedia br = Normal s -> newAudioContext br = Normal c ->
     createAnalyser br = Normal a -> createMediaStreamSource br = Normal src ->
     In (Disconnect src)
        (snd (stopMicListening (startedState br options st)))) /\
  (firstFailure br = None ->
     In (CancelAnimationFrame (frame_raf (firstFrame br)))
        (snd (stopMicListening (startedState br options st)))).
Proof.
  destruct (start_effect br options st) as (Hev & Hstr & Hctx & Hsrc & Hraf).
  split; [exact Hev |]. unfold stopMicListening. cbn [snd].
  rewrite Hstr, Hctx, Hsrc, Hraf.
  split; [| split; [| split]].
  - intros s ->. rewrite !in_app_iff. do 3 right. now left.
  - intros s c -> ->. rewrite !in_app_iff. do 2 right. left. now left.
  - intros s c a src -> -> -> ->. rewrite !in_app_iff. right. left. now left.
  - intros ->. rewrite !in_app_iff. left. now left.
Qed.

Lemma stop_StopTracks (st : State) (s : handle) :
  In (StopTracks s) (snd (stopMicListening st)) -> stream st = Some s.
Proof.
  unfold stopMicListening. cbn [snd]. rewrite !in_app_iff.
  destruct (rafId st), (source st), (audioCtx st), (stream st); cbn;
    intros H; repeat destruct H as [H | H]; try discriminate H;
    try contradiction; congruence.
Qed.

(** X21.  A second [startMicListening] without a [stopMicListening] in between
    leaks the first stream: the new stream takes its place in the module
    variable, and neither the start nor the next stop ever stops the old
    stream's tracks. *)
Theorem restart_leaks_stream (br : Browser) (options : Options) (st : State)
        (old new : handle) :
  stream st = Some old ->
  getUserMedia br = Normal new ->
  new <> old ->
  ~ In (StopTracks old)
       (startedEvents br options st ++
        snd (stopMicListening (startedState br options st))).
Proof.
  intros Hold Hnew Hne Hin.
  destruct (start_effect br options st) as (Hev & Hstr & _).
  apply in_app_or in Hin. destruct Hin as [Hin | Hin].
  - rewrite Forall_forall in Hev. specialize (Hev _ Hin). discriminate Hev.
  - apply stop_StopTracks in Hin. rewrite Hstr, Hnew in Hin. congruence.
Qed.

Lemma restart_leaks_stream_witness :
  ~ In (StopTracks 1%nat)
       (startedEvents
          (mkBrowser (Normal 5%nat) (Normal 6%nat) (Normal 7%nat) (Normal 8%nat)
                     (Normal tt) (Normal tt) (toneFrame 1000 1))
          (mkOptions None)
          (set_graph (Some 2%nat) (Some 3%nat) (Some 4%nat) (Some 1%nat) init) ++
        snd (stopMicListening
               (startedState
                  (mkBrowser (Normal 5%nat) (Normal 6%nat) (Normal 7%nat)
                             (Normal 8%nat) (Normal tt) (Normal tt)
                             (toneFrame 1000 1))
                  (mkOptions None)
                  (set_graph (Some 2%nat) (Some 3%nat) (Some 4%nat) (Some 1%nat)
                             init)))).
Proof.
  apply (@restart_leaks_stream _ _ _ 1%nat 5%nat);
    [reflexivity | reflexivity | discriminate].
Defined.

End LifecycleMore.

(** ** The silence gap, continued *)

Section SilenceGapMore.

Import MicUtilsMPM.

(** X22.  In the MPM revision the frame that completes a silence gap forgets
    the last fired note before the firing decision is taken.  So a note
    that is still tracked with enough support is fired on that very frame,
    inside the same-note cooldown, and whether or not anything was
    detected in it: only the any-note cooldown still applies. *)
Theorem gap_frame_fires_tracked_note (note : option Note) (s : Note) (now : Z)
        (raf : positive) (st : State) :
  stableNote st = Some s ->
  (forall n, note = Some n -> name n = name s) ->
  (STABLE_FRAMES <= stableCount st)%Z ->
  (SILENCE_GAP_FRAMES <= silenceFrames st + 1)%Z ->
  (suppressUntil st <= now)%Z ->
  (ANY_NOTE_COOLDOWN_MS <= now - lastFiredTime st)%Z ->
  snd (gate true note now raf st) = [OnNote (name s) (octave s)].
Proof.
  intros Hs Hnote Hc Hgap Hsup Hany.
  destruct (silenceGap_quiet st) as (_ & Hlast & _ & Htime & Hsu & Hsn & Hsc).
  specialize (Hlast Hgap).
  unfold gate. set (st0 := silenceGap true st) in *.
  assert (Ht : stableNote (track note st0) = Some s /\
               (STABLE_FRAMES <= stableCount (track note st0))%Z).
  { unfold track. destruct note as [n |].
    - rewrite Hsn, Hs, (Hnote n eq_refl), String.eqb_refl.
      cbn [stableNote stableCount set_stable]. rewrite Hsc.
      split; [reflexivity | lia].
    - rewrite Hsn, Hs, Hsc. now split. }
  destruct Ht as [Ht1 Ht2].
  destruct (track_keeps_mpm note st0) as (Hk1 & Hk2 & Hk3 & _).
  rewrite Hk1, Hsu.
  assert (Hopen : (now <? suppressUntil st)%Z = false) by (apply Z.ltb_ge; lia).
  rewrite Hopen. unfold fire. rewrite Ht1.
  assert (H1 : (STABLE_FRAMES <=? stableCount (track note st0))%Z = true)
    by (apply Z.leb_le; exact Ht2).
  rewrite H1, Hk2, Hk3, Hlast, Htime.
  assert (H2 : (now - lastFiredTime st <? ANY_NOTE_COOLDOWN_MS)%Z = false)
    by (apply Z.ltb_ge; lia).
  rewrite H2. reflexivity.
Qed.

Lemma gap_frame_fires_tracked_note_witness :
  snd (gate true None 1112 8
            (fst (runGate [(false, Some (mkNote "A" 4), 1000%Z, 1%positive);
                           (false, Some (mkNote "A" 4), 1016%Z, 2%positive);
                           (false, Some (mkNote "A" 4), 1032%Z, 3%positive);
                           (false, Some (mkNote "A" 4), 1048%Z, 4%positive);
                           (true, None, 1064%Z, 5%positive);
                           (true, None, 1080%Z, 6%positive);
                           (true, None, 1096%Z, 7%positive)] init))) =
  [OnNote "A" 4].
Proof.
  apply (@gap_frame_fires_tracked_note None (mkNote "A" 4)).
  - reflexivity.
  - discriminate.
  - apply Z.leb_le. reflexivity.
  - apply Z.leb_le. reflexivity.
  - apply Z.leb_le. reflexivity.
  - apply Z.leb_le. reflexivity.
Defined.

End SilenceGapMore.

(** ** The hook *)

Section HookFacts.

Import MicUtils UseMic.

Lemma describe_nonempty (e : JsError) : String.eqb (describe e) "" = false.
Proof.
  unfold describe. destruct (String.eqb (err_name e) "NotAllowedError");
    reflexivity.
Qed.

Lemma onHeardCalls_keeps (evs : list event) (h : Hook) :
  micActive (onHeardCalls evs h) = micActive h /\
  micError (onHeardCalls evs h) = micError h /\
  micMode (onHeardCalls evs h) = micMode h.
Proof.
  unfold onHeardCalls. revert h.
  induction evs as [| e evs IH]; intros h; [now repeat split |].
  cbn [fold_left]. destruct (IH (match e with
                                 | OnHeard n f =>
                                     mkHook (micActive h) (micError h)
                                            (Some (n, f)) (micMode h)
                                 | _ => h
                                 end)) as (H1 & H2 & H3).
  rewrite H1, H2, H3. now destruct e.
Qed.

(** What [toggleMic] does on an inactive hook, in terms of the session it
    started. *)
Lemma toggleMic_start (br : Browser) (h : Hook) (st : State) :
  micActive h = false ->
  snd (fst (toggleMic br h st)) =
    startedState br (mkOptions (Some (micMode h))) st /\
  snd (toggleMic br h st) =
    startedEvents br (mkOptions (Some (micMode h))) st /\
  micActive (fst (fst (toggleMic br h st))) =
    match firstFailure br with None => true | Some _ => false end /\
  micError (fst (fst (toggleMic br h st))) =
    match firstFailure br with None => None | Some e => Some (describe e) end /\
  micMode (fst (fst (toggleMic br h st))) = micMode h.
Proof.
  intros Hoff. unfold toggleMic, startedState, startedEvents. rewrite Hoff.
  destruct (startMicListening_result br (mkOptions (Some (micMode h))) st)
    as (st' & evs & ->).
  destruct (onHeardCalls_keeps evs h) as (Ha & He & Hm).
  cbn [fst snd]. destruct (firstFailure br) as [e |]; cbn [truthy].
  - rewrite describe_nonempty. cbn [negb fst snd micActive micError micMode].
    now rewrite Ha, Hoff, Hm.
  - cbn [fst snd micActive micError micMode]. now rewrite Hm.
Qed.

(** X23.  Switching the microphone on either activates it or reports an error,
    never both and never neither: the hook becomes active with no error
    exactly when every browser request succeeded, and otherwise stays
    inactive with the (non-empty) message of the first failure. *)
Theorem toggleMic_on_outcome (br : Browser) (h : Hook) (st : State) :
  micActive h = false ->
  (firstFailure br = None ->
   micActive (fst (fst (toggleMic br h st))) = true /\
   micError (fst (fst (toggleMic br h st))) = None) /\
  (forall e, firstFailure br = Some e ->
   micActive (fst (fst (toggleMic br h st))) = false /\
   micError (fst (fst (toggleMic br h st))) = Some (describe e) /\
   describe e <> ""%string).
Proof.
  intros Hoff.
  destruct (@toggleMic_start br h st Hoff) as (_ & _ & Ha & He & _).
  rewrite Ha, He. split.
  - now intros ->.
  - intros e ->. repeat split. apply String.eqb_neq, describe_nonempty.
Qed.

Lemma toggleMic_on_outcome_witness :
  micActive
    (fst (fst (toggleMic
                 (mkBrowser (Throw (mkJsError "NotAllowedError" "Permission denied"))
                            (Normal 2%nat) (Normal 3%nat) (Normal 4%nat)
                            (Normal tt) (Normal tt) (toneFrame 1000 1))
                 initial init))) = false /\
  micError
    (fst (fst (toggleMic
                 (mkBrowser (Throw (mkJsError "NotAllowedError" "Permission denied"))
                            (Normal 2%nat) (Normal 3%nat) (Normal 4%nat)
                            (Normal tt) (Normal tt) (toneFrame 1000 1))
                 initial init))) = Some denied.
Proof.
  destruct (@toggleMic_on_outcome
              (mkBrowser (Throw (mkJsError "NotAllowedError" "Permission denied"))
                         (Normal 2%nat) (Normal 3%nat) (Normal 4%nat)
                         (Normal tt) (Normal tt) (toneFrame 1000 1))
              initial init eq_refl) as [_ Hfail].
  destruct (Hfail (mkJsError "NotAllowedError" "Permission denied") eq_refl)
    as (Ha & He & _).
  split; [exact Ha | exact He].
Defined.

(** X24.  On, then off: after a successful start the next [toggleMic] stops the
    session.  The module is back in its initial state, the hook is
    inactive with no error and no last heard note, and the second call
    cancels the frame callback, disconnects the source, closes the context
    and stops the stream of the first. *)
Theorem toggle_on_then_off (br br' : Browser) (h : Hook) (st : State)
        (s c a src : handle) :
  micActive h = false ->
  getUserMedia br = Normal s -> newAudioContext br = Normal c ->
  createAnalyser br = Normal a -> createMediaStreamSource br = Normal src ->
  connect br = Normal tt -> newYIN br = Normal tt ->
  fst (toggleTwice br br' h st) = (mkHook false None None (micMode h), init) /\
  snd (toggleTwice br br' h st) =
    startedEvents br (mkOptions (Some (micMode h))) st ++
    [CancelAnimationFrame (frame_raf (firstFrame br)); Disconnect src;
     CloseContext c; StopTracks s].
Proof.
  intros Hoff H1 H2 H3 H4 H5 H6.
  assert (Hff : firstFailure br = None).
  { unfold firstFailure. now rewrite H1, H2, H3, H4, H5, H6. }
  destruct (@toggleMic_start br h st Hoff) as (Hst & Hev & Ha & He & Hm).
  destruct (start_effect br (mkOptions (Some (micMode h))) st)
    as (_ & Hstr & Hctx & Hsrc & Hraf).
  rewrite Hff in *. rewrite H1, H2, H3, H4 in *.
  unfold toggleTwice.
  destruct (toggleMic br h st) as [[h1 st1] evs1]. cbn [fst snd] in *.
  unfold toggleMic. rewrite Ha. unfold stopMicListening.
  subst st1 evs1. rewrite Hstr, Hctx, Hsrc, Hraf, Hm. cbn [fst snd app].
  split; reflexivity.
Qed.

Lemma toggle_on_then_off_witness :
  fst (toggleTwice
         (mkBrowser (Normal 1%nat) (Normal 2%nat) (Normal 3%nat) (Normal 4%nat)
                    (Normal tt) (Normal tt) (toneFrame 1000 7))
         (mkBrowser (Normal 1%nat) (Normal 2%nat) (Normal 3%nat) (Normal 4%nat)
                    (Normal tt) (Normal tt) (toneFrame 1000 7))
         initial init) = (mkHook false None None "normal", init).
Proof.
  apply (@toggle_on_then_off
           (mkBrowser (Normal 1%nat) (Normal 2%nat) (Normal 3%nat) (Normal 4%nat)
                      (Normal tt) (Normal tt) (toneFrame 1000 7))
           (mkBrowser (Normal 1%nat) (Normal 2%nat) (Normal 3%nat) (Normal 4%nat)
                      (Normal tt) (Normal tt) (toneFrame 1000 7))
           initial init 1%nat 2%nat 3%nat 4%nat); reflexivity.
Defined.

(** X25.  A start that fails after the microphone was granted leaves the hook
    inactive, so the next [toggleMic] starts again instead of stopping:
    the stream of the failed attempt is replaced without its tracks ever
    being stopped, neither by the two calls nor by a stop after them. *)
Theorem failed_start_leaks_on_retry (br1 br2 : Browser) (h : Hook) (st : State)
        (s1 s2 : handle) (e : JsError) :
  micActive h = false ->
  getUserMedia br1 = Normal s1 -> firstFailure br1 = Some e ->
  getUserMedia br2 = Normal s2 -> s2 <> s1 ->
  stream (snd (fst (toggleMic br1 h st))) = Some s1 /\
  ~ In (StopTracks s1)
       (snd (toggleTwice br1 br2 h st) ++
        snd (stopMicListening (snd (fst (toggleTwice br1 br2 h st))))).
Proof.
  intros Hoff Hs1 Hfail Hs2 Hne.
  destruct (@toggleMic_start br1 h st Hoff) as (Hst & Hev & Ha & _ & _).
  destruct (start_effect br1 (mkOptions (Some (micMode h))) st)
    as (Hrel1 & Hstr1 & _).
  rewrite Hfail in Ha. rewrite Hs1 in Hstr1.
  unfold toggleTwice.
  destruct (toggleMic br1 h st) as [[h1 st1] evs1]. cbn [fst snd] in *.
  subst st1 evs1. split; [exact Hstr1 |].
  set (st1 := startedState br1 (mkOptions (Some (micMode h))) st) in *.
  destruct (@toggleMic_start br2 h1 st1 Ha) as (Hst2 & Hev2 & _).
  destruct (toggleMic br2 h1 st1) as [[h2 st2] evs2]. cbn [fst snd] in *.
  subst st2 evs2.
  destruct (start_effect br2 (mkOptions (Some (micMode h1))) st1)
    as (Hrel2 & Hstr2 & _).
  rewrite Hs2 in Hstr2.
  rewrite !in_app_iff. intros [[Hin | Hin] | Hin].
  - rewrite Forall_forall in Hrel1. specialize (Hrel1 _ Hin). discriminate.
  - rewrite Forall_forall in Hrel2. specialize (Hrel2 _ Hin). discriminate.
  - apply stop_StopTracks in Hin. rewrite Hstr2 in Hin. congruence.
Qed.

Lemma failed_start_leaks_on_retry_witness :
  ~ In (StopTracks 1%nat)
       (snd (toggleTwice
               (mkBrowser (Normal 1%nat)
                          (Throw (mkJsError "NotSupportedError" "no context"))
                          (Normal 3%nat) (Normal 4%nat)
                          (Normal tt) (Normal tt) (toneFrame 1000 7))
               (mkBrowser (Normal 5%nat) (Normal 6%nat) (Normal 7%nat)
                          (Normal 8%nat) (Normal tt) (Normal tt)
                          (toneFrame 2000 9))
               initial init) ++
        snd (stopMicListening
               (snd (fst (toggleTwice
                            (mkBrowser (Normal 1%nat)
                                       (Throw (mkJsError "NotSupportedError"
                                                         "no context"))
                                       (Normal 3%nat) (Normal 4%nat)
                                       (Normal tt) (Normal tt)
                                       (toneFrame 1000 7))
                            (mkBrowser (Normal 5%nat) (Normal 6%nat)
                                       (Normal 7%nat) (Normal 8%nat)
                                       (Normal tt) (Normal tt)
                                       (toneFrame 2000 9))
                            initial init))))).
Proof.
  apply (@failed_start_leaks_on_retry _ _ initial init 1%nat 5%nat
           (mkJsError "NotSupportedError" "no context"));
    [reflexivity | reflexivity | reflexivity | reflexivity | discriminate].
Defined.

Lemma hookStep_invariant (hs : Hook * State) (a : HookAction) :
  (micActive (fst hs) = true ->
   micError (fst hs) = None /\ sessionLive (snd hs)) ->
  micActive (fst (hookStep hs a)) = true ->
  micError (fst (hookStep hs a)) = None /\ sessionLive (snd (hookStep hs a)).
Proof.
  destruct hs as [h st]. cbn [fst snd]. intros Hinv.
  destruct a as [br | b | preset fr]; cbn [hookStep].
  - destruct (micActive h) eqn:Hact.
    + unfold toggleMic. rewrite Hact.
      destruct (stopMicListening st) as [st1 evs]. cbn. discriminate.
    + destruct (@toggleMic_start br h st Hact) as (Hst & _ & Ha & He & _).
      destruct (start_effect br (mkOptions (Some (micMode h))) st)
        as (_ & Hstr & Hctx & Hsrc & Hraf).
      destruct (toggleMic br h st) as [[h1 st1] evs1]. cbn [fst snd] in *.
      subst st1. rewrite Ha, He.
      destruct (firstFailure br) as [e |] eqn:Hff; [discriminate |].
      intros _. split; [reflexivity |].
      unfold firstFailure in Hff. unfold sessionLive.
      rewrite Hstr, Hctx, Hsrc, Hraf.
      destruct (getUserMedia br); [| discriminate].
      destruct (newAudioContext br); [| discriminate].
      destruct (createAnalyser br); [| discriminate].
      destruct (createMediaStreamSource br); [| discriminate].
      repeat split; discriminate.
  - unfold songCompleteEffect. destruct b; cbn [andb]; [| exact Hinv].
    destruct (micActive h) eqn:Hact; [| cbn; rewrite Hact; discriminate].
    destruct (stopMicListening st) as [st1 evs]. cbn. discriminate.
  - destruct (rafId st) as [id |] eqn:Hid; [| exact Hinv].
    destruct (loop_graph preset fr st) as (Hctx & Hsrc & Hstr & Hraf).
    destruct (loop preset fr st) as [st' evs]. cbn [fst snd] in *.
    destruct (onHeardCalls_keeps evs h) as (Ha & He & _).
    rewrite Ha, He. intros Hact. destruct (Hinv Hact) as (Herr & H1 & H2 & H3 & _).
    split; [exact Herr |]. unfold sessionLive.
    rewrite Hctx, Hsrc, Hstr, Hraf. repeat split; try assumption. discriminate.
Qed.

(** X26.  Whatever the user and the browser do after mounting, whenever the
    hook shows the microphone as active it shows no error and the module
    holds a live session: a stream, a context, a source and a pending
    frame callback. *)
Theorem hook_active_means_live (acts : list HookAction) :
  micActive (fst (hookRun acts (initial, init))) = true ->
  micError (fst (hookRun acts (initial, init))) = None /\
  sessionLive (snd (hookRun acts (initial, init))).
Proof.
  unfold hookRun.
  assert (H : forall hs,
             (micActive (fst hs) = true ->
              micError (fst hs) = None /\ sessionLive (snd hs)) ->
             micActive (fst (fold_left hookStep acts hs)) = true ->
             micError (fst (fold_left hookStep acts hs)) = None /\
             sessionLive (snd (fold_left hookStep acts hs))).
  { induction acts as [| a acts IH]; intros hs Hinv; [exact Hinv |].
    cbn [fold_left]. apply IH. now apply hookStep_invariant. }
  apply H. cbn. discriminate.
Qed.

Lemma hook_active_means_live_witness :
  micError
    (fst (hookRun
            [Toggle (mkBrowser (Normal 1%nat) (Normal 2%nat) (Normal 3%nat)
                               (Normal 4%nat) (Normal tt) (Normal tt)
                               (toneFrame 1000 7))]
            (initial, init))) = None /\
  sessionLive
    (snd (hookRun
            [Toggle (mkBrowser (Normal 1%nat) (Normal 2%nat) (Normal 3%nat)
                               (Normal 4%nat) (Normal tt) (Normal tt)
                               (toneFrame 1000 7))]
            (initial, init))).
Proof.
  apply (@hook_active_means_live
           [Toggle (mkBrowser (Normal 1%nat) (Normal 2%nat) (Normal 3%nat)
                              (Normal 4%nat) (Normal tt) (Normal tt)
                              (toneFrame 1000 7))]).
  cbn [hookRun fold_left hookStep].
  now destruct (@toggleMic_start
                  (mkBrowser (Normal 1%nat) (Normal 2%nat) (Normal 3%nat)
                             (Normal 4%nat) (Normal tt) (Normal tt)
                             (toneFrame 1000 7))
                  initial init eq_refl) as (_ & _ & -> & _).
Defined.

End HookFacts.

(** ** What the loop reports to [onHeard] *)

Section HeardFacts.

Import MicUtils.

Lemma onHeard_of_onNote (evs : list event) :
  heardReports (onNoteCalls evs) = [].
Proof.
  unfold heardReports, onNoteCalls.
  induction evs as [| e evs IH]; [reflexivity |].
  destruct e; cbn; exact IH.
Qed.

(** X27.  Every frame reports its candidate to [onHeard] exactly once, with the
    frequency it was derived from, and reports nothing when it has no
    candidate.  This does not depend on the state: the report is made
    while detection is suppressed and inside the cooldowns too. *)
Theorem loop_reports_candidate (preset : Preset) (fr : Frame) (st : State) :
  heardReports (snd (loop preset fr st)) =
  match fst (detect preset fr) with
  | Some n => [OnHeard (name n) (snd (detect preset fr))]
  | None => []
  end.
Proof.
  unfold loop.
  pose proof (@detect_piano_natural preset fr) as Hnat.
  destruct (detect preset fr) as [note freq]. cbn [fst snd] in *.
  pose proof (gate_only_onNote note (frame_now fr) (frame_raf fr) st) as Hg.
  destruct (gate note (frame_now fr) (frame_raf fr) st) as [st' fired].
  cbn [fst snd] in *. unfold heardReports. rewrite filter_app.
  fold (heardReports fired). rewrite <- Hg, onHeard_of_onNote, app_nil_r.
  unfold heard. destruct note as [n |]; [| reflexivity].
  destruct (Hnat n eq_refl) as [Hin _].
  destruct (String.eqb (name n) "") eqn:He; [| reflexivity].
  apply String.eqb_eq in He. rewrite He in Hin. cbn in Hin.
  repeat (destruct Hin as [Hin | Hin]; [discriminate Hin |]). contradiction.
Qed.

End HeardFacts.

(** ** The note pools and the song generator *)

Section NoteUtilsFacts.

Lemma Math_floor_bounds (x : R) : IZR (Math_floor x) <= x < IZR (Math_floor x) + 1.
Proof. unfold Math_floor. destruct (base_Int_part x). lra. Qed.

Lemma sameAs_sym (a b : NoteUtils.PoolNote) :
  NoteUtils.sameAs a b = NoteUtils.sameAs b a.
Proof.
  unfold NoteUtils.sameAs. now rewrite String.eqb_sym, Z.eqb_sym.
Qed.

Lemma sameAs_trans (a b p : NoteUtils.PoolNote) :
  NoteUtils.sameAs a p = true -> NoteUtils.sameAs b p = true ->
  NoteUtils.sameAs a b = true.
Proof.
  unfold NoteUtils.sameAs. intros Ha Hb.
  apply andb_true_iff in Ha, Hb. destruct Ha as [Ha1 Ha2], Hb as [Hb1 Hb2].
  apply String.eqb_eq in Ha1, Hb1. apply Z.eqb_eq in Ha2, Hb2.
  rewrite Ha1, Hb1, Ha2, Hb2, String.eqb_refl, Z.eqb_refl. reflexivity.
Qed.

(** Picking by [Math.floor(Math.random() * n)] stays inside a non-empty
    list. *)
Lemma random_index (A : Type) (rnd : R) (l : list A) :
  0 <= rnd < 1 -> l <> [] ->
  (Math_floor (rnd * INR (List.length l)) <? 0)%Z = false /\
  exists x, nth_error l (Z.to_nat (Math_floor (rnd * INR (List.length l)))) = Some x.
Proof.
  intros [Hlo Hhi] Hne.
  set (n := List.length l).
  assert (Hn : 0 < INR n).
  { apply lt_0_INR. unfold n. destruct l; [contradiction | simpl; lia]. }
  pose proof (Math_floor_bounds (rnd * INR n)) as [Hf1 Hf2].
  assert (H0 : (0 <= Math_floor (rnd * INR n))%Z).
  { apply Z.lt_succ_r. apply lt_IZR. rewrite succ_IZR.
    assert (0 <= rnd * INR n) by (apply Rmult_le_pos; lra). lra. }
  assert (H1 : (Math_floor (rnd * INR n) < Z.of_nat n)%Z).
  { apply lt_IZR. rewrite <- INR_IZR_INZ.
    assert (rnd * INR n < 1 * INR n) by (apply Rmult_lt_compat_r; lra). lra. }
  split; [apply Z.ltb_ge; exact H0 |].
  destruct (nth_error l (Z.to_nat (Math_floor (rnd * INR n)))) as [x |] eqn:Hx;
    [now exists x |].
  apply nth_error_None in Hx. fold n in Hx. lia.
Qed.

Lemma candidates_nonempty (pool : list NoteUtils.PoolNote)
      (p : NoteUtils.PoolNote) :
  twoNotes pool -> filter (fun n => negb (NoteUtils.sameAs n p)) pool <> [].
Proof.
  intros (a & b & Ha & Hb & Hab) Hnil.
  assert (Hin : forall x, In x pool -> NoteUtils.sameAs x p = true).
  { intros x Hx. destruct (NoteUtils.sameAs x p) eqn:Hs; [reflexivity |].
    assert (Hf : In x (filter (fun n => negb (NoteUtils.sameAs n p)) pool)).
    { apply filter_In. split; [exact Hx | now rewrite Hs]. }
    rewrite Hnil in Hf. destruct Hf. }
  rewrite (@sameAs_trans a b p (Hin a Ha) (Hin b Hb)) in Hab. discriminate.
Qed.

Lemma getRandomNote_fresh (rnd : R) (prev : option NoteUtils.PoolNote)
      (pool : list NoteUtils.PoolNote) :
  0 <= rnd < 1 -> twoNotes pool ->
  exists n, NoteUtils.getRandomNote rnd prev pool = Some n /\ In n pool /\
            match prev with
            | Some p => NoteUtils.sameAs n p = false
            | None => True
            end.
Proof.
  intros Hr Htwo. unfold NoteUtils.getRandomNote.
  destruct prev as [p |].
  - destruct (@random_index _ rnd
                (filter (fun n => negb (NoteUtils.sameAs n p)) pool) Hr
                (@candidates_nonempty pool p Htwo)) as [-> [x Hx]].
    exists x. split; [exact Hx |].
    apply nth_error_In, filter_In in Hx. destruct Hx as [Hin Hs].
    split; [exact Hin |]. now destruct (NoteUtils.sameAs x p).
  - assert (Hne : pool <> []).
    { destruct Htwo as (a & _ & Ha & _). now destruct pool. }
    destruct (@random_index _ rnd pool Hr Hne) as [-> [x Hx]].
    exists x. split; [exact Hx |]. split; [| exact I].
    now apply nth_error_In in Hx.
Qed.

(** X28.  [getRandomNote] on a pool with at least two different notes always
    answers a note of the pool, and never the previous note again. *)
Theorem getRandomNote_never_repeats (rnd : R) (prev : NoteUtils.PoolNote)
        (pool : list NoteUtils.PoolNote) :
  0 <= rnd < 1 -> twoNotes pool ->
  exists n, NoteUtils.getRandomNote rnd (Some prev) pool = Some n /\
            In n pool /\
            ~ (NoteUtils.note n = NoteUtils.note prev /\
               NoteUtils.octave n = NoteUtils.octave prev).
Proof.
  intros Hr Htwo.
  destruct (@getRandomNote_fresh rnd (Some prev) pool Hr Htwo)
    as (n & Hn & Hin & Hs).
  exists n. split; [exact Hn |]. split; [exact Hin |].
  intros [H1 H2]. unfold NoteUtils.sameAs in Hs.
  now rewrite H1, H2, String.eqb_refl, Z.eqb_refl in Hs.
Qed.

Lemma twoNotes_treble : twoNotes NoteUtils.TREBLE_NOTES.
Proof.
  exists (NoteUtils.mkPoolNote "C" 4 "c/4" 0), (NoteUtils.mkPoolNote "D" 4 "d/4" 1).
  cbn. tauto.
Qed.



Lemma getRandomNote_never_repeats_witness :
  exists n,
    NoteUtils.getRandomNote (1 / 2) (Some (NoteUtils.mkPoolNote "C" 4 "c/4" 0))
                            NoteUtils.TREBLE_NOTES = Some n /\
    In n NoteUtils.TREBLE_NOTES /\
    ~ (NoteUtils.note n = "C"%string /\ NoteUtils.octave n = 4%Z).
Proof.
  apply (@getRandomNote_never_repeats (1 / 2)
           (NoteUtils.mkPoolNote "C" 4 "c/4" 0) NoteUtils.TREBLE_NOTES);
    [lra | apply twoNotes_treble].
Defined.




(** X30.  End to end: every note of the treble and bass pools, sounded at the
    pitch [noteToFreq] gives it, is recognised by [freqToNote] at any
    tolerance as a note of the same octave whose letter [checkAnswer]
    accepts as the right answer. *)
Theorem pool_notes_are_recognised (n : NoteUtils.PoolNote) (tol : R) :
  In n (NoteUtils.TREBLE_NOTES ++ NoteUtils.BASS_NOTES) ->
  0 <= tol ->
  exists f heard,
    AudioUtils.noteToFreq (NoteUtils.note n) (NoteUtils.octave n) = Some f /\
    NoteMapper.freqToNote f tol = Some heard /\
    NoteUtils.checkAnswer n (name heard) = true /\
    octave heard = NoteUtils.octave n.
Proof.
  intros Hin Htol.
  assert (H : exists s,
             AudioUtils.SEMITONES (AudioUtils.toUpperCase (NoteUtils.note n)) = Some s /\
             AudioUtils.toUpperCase (NoteUtils.note n) = NoteUtils.note n /\
             (21 <= (NoteUtils.octave n + 1) * 12 + s <= 108)%Z).
  { cbn in Hin.
    repeat (destruct Hin as [<- | Hin];
            [eexists; cbn; split; [reflexivity | split; [reflexivity | lia]] |]).
    contradiction. }
  destruct H as (s & Hs & Hup & Hkey).
  destruct (@SEMITONES_letter _ _ (NoteUtils.octave n) Hs)
    as (Hname & Hnat & Hoct).
  unfold AudioUtils.noteToFreq. rewrite Hs. cbv zeta.
  eexists. exists (mkNote (NoteUtils.note n) (NoteUtils.octave n)).
  split; [reflexivity |]. split.
  - rewrite pitch_heard_back by assumption.
    unfold NoteMapper.noteOfMidi. now rewrite Hname, Hoct, Hup.
  - cbn [name octave]. unfold NoteUtils.checkAnswer.
    now rewrite String.eqb_refl.
Qed.

Lemma pool_notes_are_recognised_witness :
  exists f heard,
    AudioUtils.noteToFreq "G" 2 = Some f /\
    NoteMapper.freqToNote f (35 / 100) = Some heard /\
    NoteUtils.checkAnswer (NoteUtils.mkPoolNote "G" 2 "g/2" 4) (name heard) = true /\
    octave heard = 2%Z.
Proof.
  apply (@pool_notes_are_recognised (NoteUtils.mkPoolNote "G" 2 "g/2" 4)
           (35 / 100)); [| lra].
  cbn. tauto.
Defined.

End NoteUtilsFacts.
